(** * TaskScheduler.py: validation and priority scheduling of a task forest

    A shallow embedding of [schedule_tasks] (with its two inner functions
    [validate_task] and [traverse_and_schedule]) and of the Python builtins
    it calls ([isinstance], [dict.get], [<] on keys, [sorted]), followed by
    the properties of the scheduler. *)

From Stdlib Require Import List ZArith QArith String Ascii Bool Arith Lia.
From Stdlib Require Import Permutation Sorted SpecFloat.
Import ListNotations.

Set Implicit Arguments.
Set Warnings "-register-all".
Local Abbreviation length := List.length.
Local Abbreviation concat := List.concat.
Close Scope Q_scope.
Open Scope string_scope.
Open Scope nat_scope.
Open Scope list_scope.

(** ** Python values *)

(** The JSON-like part of Python's value universe: what a task hierarchy
    and the fields of a task can hold.  A [dict] is the list of its items
    (string keys); a lookup returns the first binding of the key.  A [float]
    is an IEEE-754 value of the standard library's [spec_float]. *)
Inductive value : Type :=
| VNone
| VBool (b : bool)
| VInt (z : Z)
| VFloat (f : spec_float)
| VStr (s : string)
| VList (l : list value)
| VDict (items : list (string * value)).

(** [d.get(k)] / [k in d] / [d[k]] on the items of a dict. *)
Fixpoint get {A : Type} (k : string) (d : list (string * A)) : option A :=
  match d with
  | [] => None
  | (k', v) :: d' => if String.eqb k' k then Some v else get k d'
  end.

(** Nesting depth of a value: the recursion depth the traversal can reach. *)
Fixpoint vdepth (v : value) : nat :=
  match v with
  | VList l => S (list_max (map vdepth l))
  | VDict d => S (list_max (map (fun kv => vdepth (snd kv)) d))
  | _ => 0
  end.

(** ** Exceptions and outcomes *)

Inductive exn : Type :=
| ValueError (msg : string)
| TypeError
| AttributeError
| KeyError.

(** The outcome of running a piece of Python: a value, a raised exception,
    or (for the recursive functions, which take a recursion budget) the
    budget being used up.  The budget stands for the call stack: the
    recursion limit of the interpreter is not modelled, and the properties
    are about budgets no hierarchy can use up. *)
Inductive outcome (A : Type) : Type :=
| Done (a : A)
| Raise (e : exn)
| OutOfFuel.

Arguments Done {A} a.
Arguments Raise {A} e.
Arguments OutOfFuel {A}.

Definition bind {A B : Type} (m : outcome A) (k : A -> outcome B) : outcome B :=
  match m with
  | Done a => k a
  | Raise e => Raise e
  | OutOfFuel => OutOfFuel
  end.

Notation "x <- m ;; k" := (bind m (fun x => k))
  (at level 61, m at next level, right associativity).
Notation "m ;;; k" := (bind m (fun _ => k))
  (at level 61, right associativity).

(** [for x in xs: body(x)] where the body returns nothing. *)
Fixpoint for_each {A : Type} (body : A -> outcome unit) (xs : list A) : outcome unit :=
  match xs with
  | [] => Done tt
  | x :: xs' => body x ;;; for_each body xs'
  end.

(** [for x in xs: acc.extend(f(x))], from the accumulator [acc]. *)
Fixpoint extend_each {A B : Type} (f : A -> outcome (list B)) (acc : list B)
         (xs : list A) : outcome (list B) :=
  match xs with
  | [] => Done acc
  | x :: xs' => r <- f x ;; extend_each f (acc ++ r) xs'
  end.

(** [[f(x) for x in xs]], stopping at the first exception. *)
Fixpoint map_each {A B : Type} (f : A -> outcome B) (xs : list A) : outcome (list B) :=
  match xs with
  | [] => Done []
  | x :: xs' => y <- f x ;; ys <- map_each f xs' ;; Done (y :: ys)
  end.

(** ** Numbers and Python's comparisons *)

(** The numeric value of an [int], [bool] or [float]: a rational, an
    infinity, or not-a-number. *)
Inductive num : Type :=
| NaN
| NegInf
| Fin (q : Q)
| PosInf.

(** [m * 2^e] as a rational. *)
Definition dyadic (m e : Z) : Q :=
  match e with
  | Z0 => Qmake m 1
  | Zpos p => Qmake (m * Z.pow_pos 2 p) 1
  | Zneg p => Qmake m (Pos.pow 2 p)
  end.

Definition float_num (f : spec_float) : num :=
  match f with
  | S754_zero _ => Fin (Qmake 0 1)
  | S754_infinity s => if s then NegInf else PosInf
  | S754_nan => NaN
  | S754_finite s m e => Fin (dyadic (if s then Zneg m else Zpos m) e)
  end.

(** The number a value denotes, when it is one ([bool] is a subclass of
    [int]: [True] is 1 and [False] is 0). *)
Definition as_number (v : value) : option num :=
  match v with
  | VBool b => Some (Fin (Qmake (Z.b2z b) 1))
  | VInt z => Some (Fin (Qmake z 1))
  | VFloat f => Some (float_num f)
  | _ => None
  end.

(** [isinstance(v, (int, float))]. *)
Definition is_number (v : value) : bool :=
  match v with
  | VBool _ | VInt _ | VFloat _ => true
  | _ => false
  end.

(** [isinstance(v, str)], [isinstance(v, dict)], [isinstance(v, list)]. *)
Definition is_str (v : value) : bool :=
  match v with VStr _ => true | _ => false end.
Definition is_dict (v : value) : bool :=
  match v with VDict _ => true | _ => false end.
Definition is_list (v : value) : bool :=
  match v with VList _ => true | _ => false end.

(** [<] and [==] on numbers: exact, and false as soon as a NaN is involved. *)
Definition num_ltb (a b : num) : bool :=
  match a, b with
  | NaN, _ | _, NaN => false
  | _, NegInf => false
  | NegInf, _ => true
  | PosInf, _ => false
  | _, PosInf => true
  | Fin p, Fin q => match Qcompare p q with Lt => true | _ => false end
  end.

Definition num_eqb (a b : num) : bool :=
  match a, b with
  | NegInf, NegInf | PosInf, PosInf => true
  | Fin p, Fin q => match Qcompare p q with Eq => true | _ => false end
  | _, _ => false
  end.

(** [a == b].  Values are compared by structure: two NaN are taken to be
    two objects (Python's containers first test identity). *)
Fixpoint py_eq (a b : value) : bool :=
  match a with
  | VNone => match b with VNone => true | _ => false end
  | VStr s => match b with VStr t => String.eqb s t | _ => false end
  | VList l =>
      match b with
      | VList m =>
          (fix go (l m : list value) : bool :=
             match l, m with
             | [], [] => true
             | x :: l', y :: m' => py_eq x y && go l' m'
             | _, _ => false
             end) l m
      | _ => false
      end
  | VDict d =>
      match b with
      | VDict e =>
          Nat.eqb (length d) (length e) &&
          (fix go (d : list (string * value)) : bool :=
             match d with
             | [] => true
             | (k, v) :: d' =>
                 match get k e with
                 | Some w => py_eq v w
                 | None => false
                 end && go d'
             end) d
      | _ => false
      end
  | _ =>
      match as_number a, as_number b with
      | Some x, Some y => num_eqb x y
      | _, _ => false
      end
  end.

(** [a < b]: numbers by value, strings and lists lexicographically, and a
    [TypeError] for every other pair of types. *)
Fixpoint py_lt (a b : value) : outcome bool :=
  match a with
  | VStr s => match b with VStr t => Done (String.ltb s t) | _ => Raise TypeError end
  | VList l =>
      match b with
      | VList m =>
          (fix go (l m : list value) : outcome bool :=
             match l, m with
             | x :: l', y :: m' => if py_eq x y then go l' m' else py_lt x y
             | [], _ :: _ => Done true
             | _, [] => Done false
             end) l m
      | _ => Raise TypeError
      end
  | _ =>
      match as_number a, as_number b with
      | Some x, Some y => Done (num_ltb x y)
      | _, _ => Raise TypeError
      end
  end.

(** ** The builtin [sorted] *)

(** CPython's [list.sort] on a list of fewer than 64 items: [count_run]
    finds the initial run (ascending, or strictly descending and then
    reversed) and [binarysort] inserts the remaining items one by one at the
    slot a binary search finds.  Only [<] is used, and its exceptions
    propagate.  From 64 items on CPython merges runs produced this way, which
    gives the same list whenever [<] orders the keys as a strict weak order. *)
Section ListSort.
Variable X : Type.
Variable lt : X -> X -> outcome bool.

(** Extends a run after [prev] while the comparison [x < prev] of each
    next item answers [want]; returns the extension and what is left. *)
Fixpoint run_while (want : bool) (prev : X) (l : list X) : outcome (list X * list X) :=
  match l with
  | [] => Done ([], [])
  | x :: l' =>
      c <- lt x prev ;;
      if Bool.eqb c want
      then rr <- run_while want x l' ;; Done (x :: fst rr, snd rr)
      else Done ([], l)
  end.

Definition count_run (l : list X) : outcome (list X * list X) :=
  match l with
  | [] => Done ([], [])
  | [x0] => Done ([x0], [])
  | x0 :: x1 :: l' =>
      descending <- lt x1 x0 ;;
      rr <- run_while descending x1 l' ;;
      let run := x0 :: x1 :: fst rr in
      Done (if descending then rev run else run, snd rr)
  end.

(** The binary search of [binarysort]: the slot of [pivot] in [a[l:r]]. *)
Fixpoint bisect (fuel : nat) (pivot : X) (a : list X) (l r : nat) : outcome nat :=
  if r <=? l then Done l else
  match fuel with
  | 0 => OutOfFuel
  | S fuel' =>
      let p := l + Nat.div2 (r - l) in
      match nth_error a p with
      | Some y =>
          c <- lt pivot y ;;
          if c then bisect fuel' pivot a l p else bisect fuel' pivot a (S p) r
      | None => OutOfFuel
      end
  end.

Definition insert_at (k : nat) (pivot : X) (a : list X) : list X :=
  firstn k a ++ pivot :: skipn k a.

Fixpoint binarysort (a : list X) (rest : list X) : outcome (list X) :=
  match rest with
  | [] => Done a
  | pivot :: rest' =>
      k <- bisect (length a) pivot a 0 (length a) ;;
      binarysort (insert_at k pivot a) rest'
  end.

Definition list_sort (l : list X) : outcome (list X) :=
  rr <- count_run l ;; binarysort (fst rr) (snd rr).
End ListSort.

(** [sorted(xs, key=key, reverse=True)]: the keys are computed first, the
    list is reversed, sorted on the keys and reversed again. *)
Definition sorted_reverse {A : Type} (key : A -> outcome value) (xs : list A)
  : outcome (list A) :=
  keyed <- map_each (fun x => k <- key x ;; Done (k, x)) xs ;;
  s <- list_sort (fun a b => py_lt (fst a) (fst b)) (rev keyed) ;;
  Done (map snd (rev s)).

(** ** The scheduler *)

(** [lambda x: x.get('priority', 0)]. *)
Definition priority_key (x : value) : outcome value :=
  match x with
  | VDict d =>
      Done (match get "priority" d with Some p => p | None => VInt 0 end)
  | _ => Raise AttributeError
  end.

Definition msg_not_dict : string := "Each task must be a dictionary.".
Definition msg_name : string := "Each task must have a 'name' field of type string.".
Definition msg_priority : string := "The 'priority' field, if present, must be a number.".
Definition msg_subtasks : string := "The 'subtasks' field must be a list.".
Definition msg_hierarchy : string := "The task hierarchy must be a list.".
Definition msg_top_level : string := "All top-level tasks must be dictionaries.".

Fixpoint validate_task (fuel : nat) (task : value) : outcome unit :=
  match fuel with
  | 0 => OutOfFuel
  | S fuel' =>
      match task with
      | VDict d =>
          match get "name" d with
          | Some (VStr _) =>
              match get "priority" d with
              | Some p => if is_number p then Done tt else Raise (ValueError msg_priority)
              | None => Done tt
              end ;;;
              match get "subtasks" d with
              | Some (VList l) => for_each (validate_task fuel') l
              | Some _ => Raise (ValueError msg_subtasks)
              | None => Done tt
              end
          | _ => Raise (ValueError msg_name)
          end
      | _ => Raise (ValueError msg_not_dict)
      end
  end.

(** The two branches marked unreachable are behind [validate_task], which
    has raised for a task that is no dict or whose subtasks are no list. *)
Fixpoint traverse_and_schedule (fuel : nat) (task : value) : outcome (list value) :=
  match fuel with
  | 0 => OutOfFuel
  | S fuel' =>
      validate_task fuel task ;;;
      match task with
      | VDict d =>
          tasks <- match get "subtasks" d with
                   | Some (VList l) =>
                       subtasks <- sorted_reverse priority_key l ;;
                       extend_each (traverse_and_schedule fuel') [] subtasks
                   | Some _ => Raise TypeError (* unreachable *)
                   | None => Done []
                   end ;;
          match get "name" d with
          | Some name => Done (tasks ++ [name])
          | None => Raise KeyError
          end
      | _ => Raise TypeError (* unreachable *)
      end
  end.

Definition schedule_tasks (task_hierarchy : value) : outcome (list value) :=
  match task_hierarchy with
  | VList ts =>
      if forallb is_dict ts then
        sorted_tasks <- sorted_reverse priority_key ts ;;
        extend_each (traverse_and_schedule (S (vdepth task_hierarchy))) [] sorted_tasks
      else Raise (ValueError msg_top_level)
  | _ => Raise (ValueError msg_hierarchy)
  end.

(** ** Notions the properties are stated with *)

(** The children of a task: the items of its ['subtasks'] list. *)
Definition subtasks_of (task : value) : list value :=
  match task with
  | VDict d => match get "subtasks" d with Some (VList l) => l | _ => [] end
  | _ => []
  end.

(** [task['name']]. *)
Definition name_of (task : value) : value :=
  match task with
  | VDict d => match get "name" d with Some n => n | None => VNone end
  | _ => VNone
  end.

(** A task followed by all the tasks below it. *)
Fixpoint nodes (v : value) : list value :=
  v :: match v with
       | VDict d =>
           (fix find (items : list (string * value)) : list value :=
              match items with
              | [] => []
              | (k, x) :: items' =>
                  if String.eqb k "subtasks"
                  then match x with VList l => flat_map nodes l | _ => [] end
                  else find items'
              end) d
       | _ => []
       end.

(** All the tasks of a hierarchy, and its lists of siblings: the top level
    and the subtasks of every task. *)
Definition forest_nodes (h : list value) : list value := flat_map nodes h.

Definition sibling_groups (h : list value) : list (list value) :=
  h :: map subtasks_of (forest_nodes h).

(** The flattened sequence of the subtree of a task: the traversal run with
    a budget its depth cannot use up. *)
Definition subtree_sequence (task : value) : outcome (list value) :=
  traverse_and_schedule (S (vdepth task)) task.

(** The number a task is ordered by: its priority, 0 when it has none. *)
Definition priority (task : value) : option num :=
  match priority_key task with
  | Done p => as_number p
  | _ => None
  end.

(** The priority is a number that compares: anything but NaN. *)
Definition has_order (task : value) : bool :=
  match priority task with
  | Some NaN | None => false
  | Some _ => true
  end.

Definition higher_priority (x y : value) : bool :=
  match priority x, priority y with
  | Some a, Some b => num_ltb b a
  | _, _ => false
  end.

Definition same_priority (x y : value) : bool :=
  match priority x, priority y with
  | Some a, Some b => num_eqb a b
  | _, _ => false
  end.

(** The priority of a task is present and is no number. *)
Definition bad_priority (task : value) : bool :=
  match task with
  | VDict d => match get "priority" d with Some p => negb (is_number p) | None => false end
  | _ => false
  end.

Definition priority_ok (d : list (string * value)) : Prop :=
  match get "priority" d with Some p => is_number p = true | None => True end.

(** The tasks the validator accepts. *)
Inductive valid_task : value -> Prop :=
| valid_leaf : forall d s,
    get "name" d = Some (VStr s) -> priority_ok d ->
    get "subtasks" d = None ->
    valid_task (VDict d)
| valid_node : forall d s l,
    get "name" d = Some (VStr s) -> priority_ok d ->
    get "subtasks" d = Some (VList l) -> Forall valid_task l ->
    valid_task (VDict d).

(** Tasks that are well formed whatever their priorities are. *)
Inductive shaped_task : value -> Prop :=
| shaped_leaf : forall d s,
    get "name" d = Some (VStr s) ->
    get "subtasks" d = None ->
    shaped_task (VDict d)
| shaped_node : forall d s l,
    get "name" d = Some (VStr s) ->
    get "subtasks" d = Some (VList l) -> Forall shaped_task l ->
    shaped_task (VDict d).

(** Two priority fields that denote the same key: equal, or a boolean
    and the integer it stands for, or no field and the integer 0. *)
Inductive alike_priority : option value -> option value -> Prop :=
| alike_priority_same : forall o, alike_priority o o
| alike_priority_bool : forall b,
    alike_priority (Some (VBool b)) (Some (VInt (Z.b2z b)))
| alike_priority_int : forall b,
    alike_priority (Some (VInt (Z.b2z b))) (Some (VBool b))
| alike_priority_absent : alike_priority None (Some (VInt 0))
| alike_priority_zero : alike_priority (Some (VInt 0)) None.

(** Two tasks the scheduler cannot tell apart: same name, priorities alike,
    and subtasks that are the same field, or lists of tasks alike one by
    one, or an empty list on one side and no field on the other. *)
Inductive alike : value -> value -> Prop :=
| alike_same : forall v, alike v v
| alike_field : forall d d',
    get "name" d = get "name" d' ->
    alike_priority (get "priority" d) (get "priority" d') ->
    get "subtasks" d = get "subtasks" d' ->
    alike (VDict d) (VDict d')
| alike_list : forall d d' l l',
    get "name" d = get "name" d' ->
    alike_priority (get "priority" d) (get "priority" d') ->
    get "subtasks" d = Some (VList l) -> get "subtasks" d' = Some (VList l') ->
    Forall2 alike l l' ->
    alike (VDict d) (VDict d')
| alike_empty_l : forall d d',
    get "name" d = get "name" d' ->
    alike_priority (get "priority" d) (get "priority" d') ->
    get "subtasks" d = Some (VList []) -> get "subtasks" d' = None ->
    alike (VDict d) (VDict d')
| alike_empty_r : forall d d',
    get "name" d = get "name" d' ->
    alike_priority (get "priority" d) (get "priority" d') ->
    get "subtasks" d = None -> get "subtasks" d' = Some (VList []) ->
    alike (VDict d) (VDict d').

(** Two tasks that differ only in fields other than name, priority and
    subtasks, at any depth. *)
Inductive same_known_fields : value -> value -> Prop :=
| skf_same : forall v, same_known_fields v v
| skf_field : forall d d',
    get "name" d = get "name" d' ->
    get "priority" d = get "priority" d' ->
    get "subtasks" d = get "subtasks" d' ->
    same_known_fields (VDict d) (VDict d')
| skf_list : forall d d' l l',
    get "name" d = get "name" d' ->
    get "priority" d = get "priority" d' ->
    get "subtasks" d = Some (VList l) -> get "subtasks" d' = Some (VList l') ->
    Forall2 same_known_fields l l' ->
    same_known_fields (VDict d) (VDict d').

(** [empty_or_absent t t']: [t'] is [t] where some tasks with an empty
    subtasks list have lost the field. *)
Inductive empty_or_absent : value -> value -> Prop :=
| eoa_same : forall v, empty_or_absent v v
| eoa_drop : forall d d',
    get "subtasks" d = Some (VList []) -> get "subtasks" d' = None ->
    (forall k, k <> "subtasks" -> get k d = get k d') ->
    empty_or_absent (VDict d) (VDict d')
| eoa_below : forall d d' l l',
    get "subtasks" d = Some (VList l) -> get "subtasks" d' = Some (VList l') ->
    (forall k, k <> "subtasks" -> get k d = get k d') ->
    Forall2 empty_or_absent l l' ->
    empty_or_absent (VDict d) (VDict d').

(** [bool_as_int t t']: [t'] is [t] where some boolean priorities are
    written as the integers 1 (for [True]) and 0 (for [False]). *)
Inductive bool_as_int : value -> value -> Prop :=
| bai_same : forall v, bool_as_int v v
| bai_here : forall d d' b,
    get "priority" d = Some (VBool b) -> get "priority" d' = Some (VInt (Z.b2z b)) ->
    (forall k, k <> "priority" -> get k d = get k d') ->
    bool_as_int (VDict d) (VDict d')
| bai_below : forall d d' l l',
    get "subtasks" d = Some (VList l) -> get "subtasks" d' = Some (VList l') ->
    get "name" d = get "name" d' ->
    (get "priority" d = get "priority" d' \/
     exists b, get "priority" d = Some (VBool b) /\
               get "priority" d' = Some (VInt (Z.b2z b))) ->
    Forall2 bool_as_int l l' ->
    bool_as_int (VDict d) (VDict d').

(** Outcomes related up to a relation on their values. *)
Inductive outcome_rel {A B : Type} (R : A -> B -> Prop) : outcome A -> outcome B -> Prop :=
| rel_done : forall a b, R a b -> outcome_rel R (Done a) (Done b)
| rel_raise : forall e, outcome_rel R (Raise e) (Raise e)
| rel_fuel : outcome_rel R OutOfFuel OutOfFuel.

(** Items neither of which is below the other. *)
Definition equiv_by {X : Type} (ltb : X -> X -> bool) (c e : X) : bool :=
  negb (ltb c e) && negb (ltb e c).

(** The sort key of a task, and [<] on keys that are numbers. *)
Definition key_of (task : value) : value :=
  match priority_key task with
  | Done p => p
  | _ => VInt 0
  end.

Definition key_ltb (a b : value) : bool :=
  match as_number a, as_number b with
  | Some x, Some y => num_ltb x y
  | _, _ => false
  end.

(** A key that is a number other than NaN. *)
Definition ordered_key (k : value) : bool :=
  match as_number k with
  | Some NaN | None => false
  | Some _ => true
  end.

(** The validation of a task, run with a budget its depth cannot use up. *)
Definition validate (task : value) : outcome unit :=
  validate_task (S (vdepth task)) task.

(** Two sort keys that denote the same key. *)
Inductive alike_key : value -> value -> Prop :=
| alike_key_same : forall k, alike_key k k
| alike_key_bool : forall b, alike_key (VBool b) (VInt (Z.b2z b))
| alike_key_int : forall b, alike_key (VInt (Z.b2z b)) (VBool b).

(** [absent_or_zero t t']: [t'] is [t] where some tasks without a priority
    have got the priority 0. *)
Inductive absent_or_zero : value -> value -> Prop :=
| aoz_same : forall v, absent_or_zero v v
| aoz_here : forall d d',
    get "priority" d = None -> get "priority" d' = Some (VInt 0) ->
    (forall k, k <> "priority" -> get k d = get k d') ->
    absent_or_zero (VDict d) (VDict d')
| aoz_below : forall d d' l l',
    get "subtasks" d = Some (VList l) -> get "subtasks" d' = Some (VList l') ->
    get "name" d = get "name" d' ->
    (get "priority" d = get "priority" d' \/
     (get "priority" d = None /\ get "priority" d' = Some (VInt 0))) ->
    Forall2 absent_or_zero l l' ->
    absent_or_zero (VDict d) (VDict d').

(** The messages of the four rules of [validate_task], and the messages
    of all the validation errors of the operation. *)
Definition task_messages : list string :=
  [msg_not_dict; msg_name; msg_priority; msg_subtasks].

Definition validation_messages : list string :=
  msg_hierarchy :: msg_top_level :: task_messages.

(** The rule of [validate_task] a task violates itself, if any: the first
    in the order of the checks. *)
Definition own_violation (task : value) : option string :=
  match task with
  | VDict d =>
      match get "name" d with
      | Some (VStr _) =>
          if bad_priority task then Some msg_priority
          else match get "subtasks" d with
               | Some (VList _) | None => None
               | Some _ => Some msg_subtasks
               end
      | _ => Some msg_name
      end
  | _ => Some msg_not_dict
  end.

(** The violation of the first task of a list that has one. *)
Fixpoint first_violation (tasks : list value) : option string :=
  match tasks with
  | [] => None
  | t :: tasks' =>
      match own_violation t with
      | Some m => Some m
      | None => first_violation tasks'
      end
  end.

(** The names of a subtree, every task after the tasks below it, subtasks
    in the order of the input. *)
Fixpoint post_order (v : value) : list value :=
  match v with
  | VDict d =>
      (fix find (items : list (string * value)) : list value :=
         match items with
         | [] => []
         | (k, x) :: items' =>
             if String.eqb k "subtasks"
             then match x with VList l => flat_map post_order l | _ => [] end
             else find items'
         end) d
  | _ => []
  end ++ [name_of v].

(** The task has no priority field. *)
Definition no_priority (task : value) : bool :=
  match task with
  | VDict d => match get "priority" d with Some _ => false | None => true end
  | _ => false
  end.

(** ** Inputs of the examples *)

Definition task (name : string) (fields : list (string * value)) : value :=
  VDict (("name", VStr name) :: fields).

(** The hierarchy of the first scenario. *)
Definition task_D : value := task "D" [("priority", VInt 3)].
Definition task_B : value :=
  task "B" [("priority", VInt 1); ("subtasks", VList [task_D])].
Definition task_C : value := task "C" [("priority", VInt 3)].
Definition task_A : value :=
  task "A" [("priority", VInt 2); ("subtasks", VList [task_B; task_C])].
Definition task_E : value := task "E" [("priority", VInt 0)].

Definition basic_forest : list value := [task_A; task_E].
Definition basic_hierarchy : value := VList basic_forest.

(** Three siblings, the middle one with a NaN priority. *)
Definition nan_siblings : list value :=
  [ task "a" [("priority", VInt 1)];
    task "b" [("priority", VFloat S754_nan)];
    task "c" [("priority", VInt 2)] ].

(** Seven siblings, two of priority 2 ("a" before "c") around a NaN. *)
Definition nan_ties : list value :=
  [ task "a" [("priority", VInt 2)];
    task "b" [("priority", VInt 1)];
    task "c" [("priority", VInt 2)];
    task "d" [("priority", VFloat S754_nan)];
    task "e" [("priority", VInt 5)];
    task "f" [("priority", VInt 0)];
    task "g" [("priority", VInt 0)] ].

(** A single task with neither a name nor a numeric priority. *)
Definition nameless_bad_priority : list value :=
  [ VDict [("priority", VStr "high")] ].

(** Two top-level tasks, the first with a string for priority. *)
Definition string_priority_first : list value :=
  [ task "A" [("priority", VStr "high")];
    task "B" [("priority", VInt 1)] ].

(** ** The driver *)

(** The driver's loop body for one test case.  The result is what [print]
    was given, call by call, and how the body ended: a [ValueError] is
    caught and reported, any other exception escapes. *)
Definition run_case (case_name : string) (tasks : value) : list value * outcome unit :=
  let header := VStr (String "010" (case_name ++ ":")) in
  match schedule_tasks tasks with
  | Done scheduled_tasks =>
      (header :: VStr "Scheduled Tasks:" :: scheduled_tasks, Done tt)
  | Raise (ValueError e) => ([header; VStr ("Error: " ++ e)], Done tt)
  | Raise e => ([header], Raise e)
  | OutOfFuel => ([header], OutOfFuel)
  end.

(** [for case_name, tasks in test_cases.items(): ...]. *)
Fixpoint run_cases (cases : list (string * value)) : list value * outcome unit :=
  match cases with
  | [] => ([], Done tt)
  | (case_name, tasks) :: rest =>
      match run_case case_name tasks with
      | (printed, Done _) =>
          let (printed', r) := run_cases rest in (printed ++ printed', r)
      | (printed, r) => (printed, r)
      end
  end.

Definition test_cases : list (string * value) :=
  [ ("Case 1: Basic Hierarchy",
     VList
       [ VDict [("id", VInt 1); ("name", VStr "Task A"); ("priority", VInt 2);
                ("subtasks",
                 VList
                   [ VDict [("id", VInt 2); ("name", VStr "Task B"); ("priority", VInt 1);
                            ("subtasks",
                             VList [VDict [("id", VInt 4); ("name", VStr "Task D");
                                           ("priority", VInt 3)]])];
                     VDict [("id", VInt 3); ("name", VStr "Task C");
                            ("priority", VInt 3)] ])];
         VDict [("id", VInt 5); ("name", VStr "Task E"); ("priority", VInt 0)] ]);
    ("Case 2: No Tasks", VList []);
    ("Case 3: Single Task",
     VList [VDict [("id", VInt 1); ("name", VStr "Task X"); ("priority", VInt 5)]]);
    ("Case 4: Invalid Task Format",
     VList [VDict [("id", VInt 1); ("name", VStr "Task Invalid");
                   ("subtasks", VStr "Not a list")]]);
    ("Case 5: Mixed Valid and Invalid Tasks",
     VList
       [ VDict [("id", VInt 1); ("name", VStr "Task Y"); ("priority", VInt 3)];
         VDict [("id", VInt 2); ("name", VStr "Task Z");
                ("subtasks",
                 VList [VDict [("id", VInt 3); ("name", VStr "Subtask Valid");
                               ("priority", VInt 1)]])];
         VDict [("id", VInt 4); ("name", VStr "Task Invalid");
                ("subtasks", VStr "Invalid subtasks")] ]) ].

Definition main : list value * outcome unit := run_cases test_cases.

(** Peels a list equation [concrete = p ++ ...] apart, item by item. *)
Ltac peel :=
  repeat match goal with
         | H : _ = ?p ++ _ |- _ => is_var p; destruct p; simpl in H
         | H : _ :: _ = _ :: _ |- _ => inversion H; clear H; subst
         | H : [] = _ :: _ |- _ => discriminate H
         | H : [] = _ ++ _ :: _ |- _ => destruct (app_cons_not_nil _ _ _ H)
         end.

(** * Properties *)

(** ** Outcomes and loops *)

Lemma bind_done : forall (A B : Type) (m : outcome A) (k : A -> outcome B) b,
  bind m k = Done b -> exists a, m = Done a /\ k a = Done b.
Proof.
  intros A B [a | e |] k b H; simpl in H; try discriminate.
  exists a; split; [reflexivity | assumption].
Qed.

Lemma for_each_done : forall (A : Type) (body : A -> outcome unit) xs,
  for_each body xs = Done tt <-> Forall (fun x => body x = Done tt) xs.
Proof.
  induction xs as [| x xs IH]; simpl.
  - split; [constructor | reflexivity].
  - split.
    + intros H. destruct (body x) as [[] | |] eqn:E; simpl in H; try discriminate.
      constructor; [exact E | apply IH; assumption].
    + intros H. inversion H as [| ? ? Hx Hxs]; subst.
      rewrite Hx; simpl. apply IH; assumption.
Qed.

Lemma for_each_ext : forall (A : Type) (f g : A -> outcome unit) xs,
  (forall x, In x xs -> f x = g x) -> for_each f xs = for_each g xs.
Proof.
  induction xs as [| x xs IH]; simpl; intros H; [reflexivity |].
  rewrite (H x (or_introl eq_refl)), IH; [reflexivity |].
  intros y Hy; apply H; right; assumption.
Qed.

Lemma extend_each_ext : forall (A B : Type) (f g : A -> outcome (list B)) xs acc,
  (forall x, In x xs -> f x = g x) -> extend_each f acc xs = extend_each g acc xs.
Proof.
  induction xs as [| x xs IH]; simpl; intros acc H; [reflexivity |].
  rewrite (H x (or_introl eq_refl)).
  destruct (g x); simpl; try reflexivity.
  apply IH. intros y Hy; apply H; right; assumption.
Qed.

Lemma extend_each_done : forall (A B : Type) (f : A -> outcome (list B)) xs acc out,
  extend_each f acc xs = Done out <->
  exists rs, Forall2 (fun x r => f x = Done r) xs rs /\ out = acc ++ concat rs.
Proof.
  induction xs as [| x xs IH]; simpl; intros acc out.
  - split.
    + intros H; inversion H; subst. exists []; split; [constructor |].
      simpl; rewrite app_nil_r; reflexivity.
    + intros [rs [H ->]]. inversion H; subst. simpl; rewrite app_nil_r; reflexivity.
  - split.
    + intros H. destruct (f x) as [r | |] eqn:E; simpl in H; try discriminate.
      apply IH in H. destruct H as [rs [H ->]].
      exists (r :: rs); split; [constructor; assumption |].
      simpl; rewrite app_assoc; reflexivity.
    + intros [rs [H ->]]. inversion H as [| ? r ? rs' Hx Hxs]; subst.
      rewrite Hx; simpl. apply IH. exists rs'; split; [assumption |].
      simpl; rewrite app_assoc; reflexivity.
Qed.

Lemma extend_each_total : forall (A B : Type) (f : A -> outcome (list B)) xs acc,
  Forall (fun x => exists r, f x = Done r) xs ->
  exists out, extend_each f acc xs = Done out.
Proof.
  induction xs as [| x xs IH]; simpl; intros acc H.
  - exists acc; reflexivity.
  - inversion H as [| ? ? [r Hx] Hxs]; subst. rewrite Hx; simpl. apply IH; assumption.
Qed.

(** A loop all of whose steps return, or raise [e], raises [e] as soon as
    one step does. *)
Lemma extend_each_raise : forall (A B : Type) (f : A -> outcome (list B)) e xs acc,
  Forall (fun x => (exists r, f x = Done r) \/ f x = Raise e) xs ->
  Exists (fun x => f x = Raise e) xs ->
  extend_each f acc xs = Raise e.
Proof.
  induction xs as [| x xs IH]; simpl; intros acc HF HE.
  - inversion HE.
  - inversion HF as [| ? ? Hx Hxs]; subst.
    destruct Hx as [[r Hx] | Hx]; rewrite Hx; simpl; [| reflexivity].
    apply IH; [assumption |].
    inversion HE as [? ? Hh | ? ? Ht]; subst; [congruence | assumption].
Qed.

Lemma map_each_pure : forall (A B : Type) (f : A -> outcome B) (g : A -> B) xs,
  (forall x, In x xs -> f x = Done (g x)) -> map_each f xs = Done (map g xs).
Proof.
  induction xs as [| x xs IH]; simpl; intros H; [reflexivity |].
  rewrite (H x (or_introl eq_refl)); simpl.
  rewrite IH; [reflexivity |]. intros y Hy; apply H; right; assumption.
Qed.

Lemma map_each_done : forall (A B : Type) (f : A -> outcome B) xs ys,
  map_each f xs = Done ys -> Forall2 (fun x y => f x = Done y) xs ys.
Proof.
  induction xs as [| x xs IH]; simpl; intros ys H.
  - inversion H; constructor.
  - destruct (f x) as [y | |] eqn:E; simpl in H; try discriminate.
    destruct (map_each f xs) as [ys' | |]; simpl in H; try discriminate.
    inversion H; subst. constructor; [assumption | apply IH; reflexivity].
Qed.

(** ** Lists *)

Lemma Forall2_app_inv_l2 : forall (A B : Type) (R : A -> B -> Prop) l1 x l2 y l3 rs,
  Forall2 R (l1 ++ x :: l2 ++ y :: l3) rs ->
  exists r1 rx r2 ry r3,
    rs = r1 ++ rx :: r2 ++ ry :: r3 /\ R x rx /\ R y ry.
Proof.
  intros A B R l1 x l2 y l3 rs H.
  apply Forall2_app_inv_l in H. destruct H as [r1 [rest [_ [H ->]]]].
  inversion H as [| ? rx ? rest' Hx H']; subst.
  apply Forall2_app_inv_l in H'. destruct H' as [r2 [rest2 [_ [H' ->]]]].
  inversion H' as [| ? ry ? r3 Hy _]; subst.
  exists r1, rx, r2, ry, r3; auto.
Qed.

Lemma concat_split2 : forall (A : Type) (r1 : list (list A)) rx r2 ry r3,
  concat (r1 ++ rx :: r2 ++ ry :: r3) =
  concat r1 ++ rx ++ concat r2 ++ ry ++ concat r3.
Proof.
  intros. rewrite concat_app; simpl. rewrite concat_app; simpl. reflexivity.
Qed.

Lemma Forall2_In_l : forall (A B : Type) (R : A -> B -> Prop) l rs x,
  Forall2 R l rs -> In x l ->
  exists r r1 r2, R x r /\ rs = r1 ++ r :: r2.
Proof.
  induction 1 as [| a b l rs Hab H IH]; intros Hin; [inversion Hin |].
  destruct Hin as [-> | Hin].
  - exists b, [], rs; auto.
  - destruct (IH Hin) as [r [r1 [r2 [Hr ->]]]].
    exists r, (b :: r1), r2; auto.
Qed.

(** Two items found in that order in a filtered list are in that order in
    the list. *)
Lemma filter_split2 : forall (A : Type) (f : A -> bool) s u x v y w,
  filter f s = u ++ x :: v ++ y :: w ->
  exists s1 s2 s3, s = s1 ++ x :: s2 ++ y :: s3.
Proof.
  intros A f s. induction s as [| a s IH]; simpl; intros u x v y w H.
  - destruct u; discriminate.
  - destruct (f a) eqn:Fa.
    + destruct u as [| b u]; simpl in H.
      * inversion H as [[Ha Hs]]; subst.
        assert (Hy : In y (filter f s)) by (rewrite Hs; apply in_or_app; right; left; reflexivity).
        apply filter_In in Hy. destruct Hy as [Hy _].
        apply in_split in Hy. destruct Hy as [s2 [s3 ->]].
        exists [], s2, s3; reflexivity.
      * inversion H as [[Ha Hs]]; subst.
        destruct (IH _ _ _ _ _ Hs) as [s1 [s2 [s3 ->]]].
        exists (b :: s1), s2, s3; reflexivity.
    + destruct (IH _ _ _ _ _ H) as [s1 [s2 [s3 ->]]].
      exists (a :: s1), s2, s3; reflexivity.
Qed.

Lemma nth_error_split2 : forall (A : Type) (l : list A) i j x y,
  i < j -> nth_error l i = Some x -> nth_error l j = Some y ->
  exists a b c, l = a ++ x :: b ++ y :: c.
Proof.
  intros A l i j x y Hij Hi Hj.
  apply nth_error_split in Hi. destruct Hi as [a [rest [-> Hla]]].
  rewrite nth_error_app2 in Hj by lia.
  replace (j - length a) with (S (j - length a - 1)) in Hj by lia.
  simpl in Hj. apply nth_error_split in Hj. destruct Hj as [b [c [-> _]]].
  exists a, b, c; reflexivity.
Qed.

Lemma StronglySorted_app_iff : forall (A : Type) (R : A -> A -> Prop) l1 l2,
  StronglySorted R (l1 ++ l2) <->
  StronglySorted R l1 /\ StronglySorted R l2 /\
  (forall x y, In x l1 -> In y l2 -> R x y).
Proof.
  induction l1 as [| a l1 IH]; simpl; intros l2.
  - split.
    + intros H; repeat split; [constructor | assumption | intros ? ? []].
    + intros [_ [H _]]; assumption.
  - split.
    + intros H. inversion H as [| ? ? Hs Hf]; subst.
      apply IH in Hs. destruct Hs as [H1 [H2 H12]].
      rewrite Forall_app in Hf. destruct Hf as [Hf1 Hf2].
      repeat split; [constructor; assumption | assumption |].
      intros x y [<- | Hx] Hy; [| auto].
      rewrite Forall_forall in Hf2; auto.
    + intros [H1 [H2 H12]]. inversion H1 as [| ? ? Hs Hf]; subst.
      constructor.
      * apply IH; repeat split; auto.
      * rewrite Forall_app; split; [assumption |].
        rewrite Forall_forall; intros y Hy; apply H12; auto.
Qed.

Lemma StronglySorted_rev : forall (A : Type) (R : A -> A -> Prop) l,
  StronglySorted R l -> StronglySorted (fun x y => R y x) (rev l).
Proof.
  induction 1 as [| a l Hs IH Hf]; simpl; [constructor |].
  apply StronglySorted_app_iff; repeat split.
  - assumption.
  - constructor; constructor.
  - intros x y Hx [<- | []]. rewrite Forall_forall in Hf.
    apply Hf. apply in_rev; assumption.
Qed.

Lemma StronglySorted_weaken : forall (A : Type) (R S : A -> A -> Prop) l,
  (forall x y, In x l -> In y l -> R x y -> S x y) ->
  StronglySorted R l -> StronglySorted S l.
Proof.
  intros A R S l HRS H. induction H as [| a l Hs IH Hf]; constructor.
  - apply IH. intros x y Hx Hy; apply HRS; right; assumption.
  - rewrite Forall_forall in *. intros y Hy.
    apply HRS; [left; reflexivity | right; assumption | auto].
Qed.

Lemma StronglySorted_order : forall (A : Type) (R : A -> A -> Prop) s1 x s2 y s3,
  StronglySorted R (s1 ++ x :: s2 ++ y :: s3) -> R x y.
Proof.
  intros A R s1 x s2 y s3 H.
  apply StronglySorted_app_iff in H. destruct H as [_ [H _]].
  inversion H as [| ? ? _ Hf]; subst. rewrite Forall_forall in Hf.
  apply Hf. apply in_or_app; right; left; reflexivity.
Qed.

Lemma insert_at_perm : forall (X : Type) k (p : X) a,
  Permutation (insert_at k p a) (p :: a).
Proof.
  intros X k p a. unfold insert_at.
  rewrite <- (firstn_skipn k a) at 3.
  symmetry; apply Permutation_middle.
Qed.

(** ** The sort: what holds for any comparison *)

Section SortAny.
Variable X : Type.
Variable lt : X -> X -> outcome bool.

Lemma run_while_app : forall want l prev run rest,
  run_while lt want prev l = Done (run, rest) -> l = run ++ rest.
Proof.
  induction l as [| x l IH]; simpl; intros prev run rest H.
  - inversion H; reflexivity.
  - destruct (lt x prev) as [c | |]; simpl in H; try discriminate.
    destruct (Bool.eqb c want).
    + destruct (run_while lt want x l) as [[run' rest'] | |] eqn:E;
        simpl in H; try discriminate.
      inversion H; subst. rewrite (IH _ _ _ E); reflexivity.
    + inversion H; reflexivity.
Qed.

Lemma count_run_perm : forall l run rest,
  count_run lt l = Done (run, rest) -> Permutation (run ++ rest) l.
Proof.
  intros [| x0 [| x1 l]] run rest H; simpl in H.
  - inversion H; constructor.
  - inversion H; apply Permutation_refl.
  - destruct (lt x1 x0) as [c | |]; simpl in H; try discriminate.
    destruct (run_while lt c x1 l) as [[ext rest'] | |] eqn:E;
      cbn [bind] in H; try discriminate.
    apply run_while_app in E. cbn [fst snd] in H. inversion H; subst.
    change (x0 :: x1 :: ext ++ rest) with ((x0 :: x1 :: ext) ++ rest).
    apply Permutation_app_tail.
    destruct c; [symmetry; apply Permutation_rev | apply Permutation_refl].
Qed.

Lemma binarysort_perm : forall rest a s,
  binarysort lt a rest = Done s -> Permutation s (a ++ rest).
Proof.
  induction rest as [| p rest IH]; simpl; intros a s H.
  - inversion H; rewrite app_nil_r; apply Permutation_refl.
  - destruct (bisect lt (length a) p a 0 (length a)) as [k | |];
      simpl in H; try discriminate.
    apply IH in H. rewrite H.
    rewrite (insert_at_perm k p a). simpl. apply Permutation_middle.
Qed.

(** Whatever the comparison answers, a sort that returns returns its
    input rearranged. *)
Lemma list_sort_perm : forall l s,
  list_sort lt l = Done s -> Permutation s l.
Proof.
  unfold list_sort; intros l s H.
  apply bind_done in H. destruct H as [[run rest] [Hc Hb]]. simpl in Hb.
  rewrite (binarysort_perm _ _ Hb). apply count_run_perm; assumption.
Qed.
End SortAny.

(** ** The sort: a comparison that answers on the items at hand *)

Section SortSpec.
Variable X : Type.
Variable lt : X -> X -> outcome bool.
Variable ltb : X -> X -> bool.
Variable good : X -> Prop.
Hypothesis lt_good : forall x y, good x -> good y -> lt x y = Done (ltb x y).

Lemma run_while_good : forall want l prev,
  good prev -> Forall good l ->
  exists run rest, run_while lt want prev l = Done (run, rest).
Proof.
  induction l as [| x l IH]; simpl; intros prev Hp Hl.
  - eauto.
  - inversion Hl as [| ? ? Hx Hl']; subst.
    rewrite (lt_good Hx Hp); simpl.
    destruct (Bool.eqb (ltb x prev) want); [| eauto].
    destruct (IH x Hx Hl') as [run [rest ->]]; simpl; eauto.
Qed.

Lemma count_run_good : forall l,
  Forall good l -> exists run rest, count_run lt l = Done (run, rest).
Proof.
  intros [| x0 [| x1 l]] Hl; simpl; eauto.
  inversion Hl as [| ? ? H0 Hl']; subst. inversion Hl' as [| ? ? H1 Hl'']; subst.
  rewrite (lt_good H1 H0); simpl.
  destruct (run_while_good (ltb x1 x0) H1 Hl'') as [run [rest ->]]; simpl; eauto.
Qed.

(** The slot the binary search returns: the probe just before it, if
    any, was not above the pivot, and the probe at it, if any, was. *)
Lemma bisect_slot : forall pivot a, good pivot -> Forall good a ->
  forall fuel l r, r - l <= fuel -> r <= length a ->
  exists k, bisect lt fuel pivot a l r = Done k /\
    (l <= r -> l <= k <= r) /\
    (l < k -> exists y, nth_error a (k - 1) = Some y /\ ltb pivot y = false) /\
    (k < r -> exists y, nth_error a k = Some y /\ ltb pivot y = true).
Proof.
  intros pivot a Hp Ha. induction fuel as [| fuel IH]; intros l r Hf Hr.
  - simpl. destruct (r <=? l) eqn:E; [| apply Nat.leb_gt in E; lia].
    apply Nat.leb_le in E.
    exists l; repeat split; try lia.
  - simpl. destruct (r <=? l) eqn:E.
    + apply Nat.leb_le in E. exists l; repeat split; try lia.
    + apply Nat.leb_gt in E.
      assert (Hd : Nat.div2 (r - l) < r - l) by (apply Nat.lt_div2; lia).
      remember (Nat.div2 (r - l)) as half eqn:Eh. clear Eh.
      set (p := l + half) in *.
      assert (Hpr : p < length a) by (unfold p; lia).
      destruct (nth_error a p) as [y |] eqn:Ey;
        [| apply nth_error_None in Ey; lia].
      assert (Hy : good y).
      { rewrite Forall_forall in Ha. apply Ha. eapply nth_error_In; eassumption. }
      rewrite (lt_good Hp Hy); simpl.
      destruct (ltb pivot y) eqn:C.
      * destruct (IH l p) as [k [Hk [Hb [Hlo Hhi]]]]; [unfold p; lia | lia |].
        exists k. split; [assumption |]. split; [unfold p in *; lia |].
        split; [assumption |].
        intros Hkr. destruct (Nat.eq_dec k p) as [-> | Hne]; [eauto |].
        apply Hhi. unfold p in *; lia.
      * destruct (IH (S p) r) as [k [Hk [Hb [Hlo Hhi]]]]; [unfold p; lia | lia |].
        exists k. split; [assumption |]. split; [unfold p in *; lia |].
        split; [| assumption].
        intros Hlk. destruct (Nat.eq_dec k (S p)) as [-> | Hne].
        -- simpl. rewrite Nat.sub_0_r. eauto.
        -- apply Hlo. unfold p in *; lia.
Qed.

Lemma insert_at_good : forall k p a,
  good p -> Forall good a -> Forall good (insert_at k p a).
Proof.
  intros k p a Hp Ha. rewrite Forall_forall in *. intros x Hx.
  apply (Permutation_in _ (insert_at_perm k p a)) in Hx.
  destruct Hx as [<- | Hx]; auto.
Qed.

Lemma binarysort_good : forall rest a,
  Forall good a -> Forall good rest ->
  exists s, binarysort lt a rest = Done s.
Proof.
  induction rest as [| p rest IH]; simpl; intros a Ha Hr; [eauto |].
  inversion Hr as [| ? ? Hp Hr']; subst.
  destruct (@bisect_slot p a Hp Ha (length a) 0 (length a))
    as [k [-> _]]; [lia | lia |]; simpl.
  apply IH; [apply insert_at_good |]; assumption.
Qed.

(** The sort returns as soon as every comparison does. *)
Lemma list_sort_good : forall l,
  Forall good l -> exists s, list_sort lt l = Done s.
Proof.
  intros l Hl. unfold list_sort.
  destruct (count_run_good Hl) as [run [rest E]]. rewrite E; simpl.
  apply count_run_perm in E.
  assert (Hg : Forall good (run ++ rest)).
  { rewrite Forall_forall in *. intros x Hx. apply Hl.
    eapply Permutation_in; eassumption. }
  apply Forall_app in Hg. destruct Hg.
  apply binarysort_good; assumption.
Qed.

(** *** When the comparison is a strict weak order *)

Hypothesis ltb_irrefl : forall x, good x -> ltb x x = false.
Hypothesis ltb_trans : forall x y z, good x -> good y -> good z ->
  ltb x y = true -> ltb y z = true -> ltb x z = true.
Hypothesis ltb_ntrans : forall x y z, good x -> good y -> good z ->
  ltb x y = false -> ltb y z = false -> ltb x z = false.

Local Abbreviation ascending := (StronglySorted (fun x y => ltb y x = false)).

Lemma ltb_asym : forall x y, good x -> good y -> ltb x y = true -> ltb y x = false.
Proof.
  intros x y Hx Hy H. destruct (ltb y x) eqn:E; [| reflexivity].
  rewrite <- (ltb_irrefl Hx). symmetry. eapply ltb_trans; eauto.
Qed.

Lemma run_while_chain : forall want l prev run rest,
  good prev -> Forall good l ->
  run_while lt want prev l = Done (run, rest) ->
  StronglySorted (fun x y => ltb y x = want) (prev :: run).
Proof.
  induction l as [| x l IH]; simpl; intros prev run rest Hp Hl H.
  - inversion H; subst. repeat constructor.
  - inversion Hl as [| ? ? Hx Hl']; subst.
    rewrite (lt_good Hx Hp) in H; simpl in H.
    destruct (Bool.eqb (ltb x prev) want) eqn:E.
    + apply eqb_prop in E.
      destruct (run_while lt want x l) as [[run' rest'] | |] eqn:R;
        simpl in H; try discriminate.
      inversion H; subst. specialize (IH _ _ _ Hx Hl' R).
      pose proof (run_while_app _ _ _ _ R) as Happ.
      constructor; [assumption |].
      constructor; [reflexivity |].
      inversion IH as [| ? ? _ Hf]; subst.
      rewrite Forall_forall in *. intros y Hy.
      assert (Gy : good y) by (apply Hl'; apply in_or_app; auto).
      specialize (Hf y Hy).
      destruct (ltb x prev) eqn:W.
      * eapply ltb_trans; [| | | exact Hf | exact W]; assumption.
      * eapply ltb_ntrans; [| | | exact Hf | exact W]; assumption.
    + inversion H; subst. repeat constructor.
Qed.

Lemma equiv_by_true : forall c e,
  equiv_by ltb c e = true <-> ltb c e = false /\ ltb e c = false.
Proof.
  intros c e. unfold equiv_by.
  destruct (ltb c e), (ltb e c); simpl; intuition discriminate.
Qed.

Lemma filter_none : forall (f : X -> bool) l,
  (forall y, In y l -> f y = false) -> filter f l = [].
Proof.
  induction l as [| a l IH]; simpl; intros H; [reflexivity |].
  rewrite (H a (or_introl eq_refl)). apply IH; auto.
Qed.

(** A strictly descending run holds at most one item of each class. *)
Lemma strict_filter_short : forall c l,
  good c -> Forall good l ->
  StronglySorted (fun x y => ltb y x = true) l ->
  length (filter (equiv_by ltb c) l) <= 1.
Proof.
  intros c l Hc Hl H. induction H as [| a l Hs IH Hf]; simpl; [lia |].
  inversion Hl as [| ? ? Ha Hl']; subst.
  destruct (equiv_by ltb c a) eqn:E; [| auto].
  rewrite filter_none; [simpl; lia |].
  intros y Hy. rewrite Forall_forall in Hf, Hl'.
  destruct (equiv_by ltb c y) eqn:Ey; [| reflexivity].
  apply equiv_by_true in E, Ey. destruct E as [E1 E2], Ey as [Y1 Y2].
  rewrite <- (Hf y Hy).
  apply ltb_ntrans with (y := c); auto.
Qed.

Lemma rev_short : forall (l : list X), length l <= 1 -> rev l = l.
Proof.
  intros [| a [| b l]]; simpl; intros H; try reflexivity; lia.
Qed.

Lemma count_run_spec : forall l run rest,
  Forall good l -> count_run lt l = Done (run, rest) ->
  exists run0, l = run0 ++ rest /\ ascending run /\
    forall c, good c ->
      filter (equiv_by ltb c) run = filter (equiv_by ltb c) run0.
Proof.
  intros [| x0 [| x1 l]] run rest Hl H.
  - inversion H; subst. exists []; repeat split; constructor.
  - inversion H; subst. exists [x0]; repeat split; repeat constructor.
  - inversion Hl as [| ? ? H0 Hl']; subst.
    pose proof Hl' as Hl1. inversion Hl1 as [| ? ? H1 Hl'']; subst.
    assert (R : exists ext,
               run_while lt (ltb x1 x0) x0 (x1 :: l) = Done (x1 :: ext, rest) /\
               run = (if ltb x1 x0 then rev (x0 :: x1 :: ext) else x0 :: x1 :: ext)).
    { cbn [count_run run_while] in *. rewrite (lt_good H1 H0) in *.
      cbn [bind] in *. rewrite eqb_reflx.
      destruct (run_while lt (ltb x1 x0) x1 l) as [[ext rest'] | |];
        cbn [bind fst snd] in *; try discriminate.
      inversion H; subst. exists ext; split; reflexivity. }
    destruct R as [ext [R ->]].
    pose proof (run_while_app _ _ _ _ R) as Happ.
    pose proof (run_while_chain _ H0 Hl' R) as Hch.
    assert (Hg : Forall good (x0 :: x1 :: ext)).
    { constructor; [assumption |]. rewrite Happ in Hl'.
      apply Forall_app in Hl'. apply Hl'. }
    exists (x0 :: x1 :: ext). split; [simpl in *; congruence |].
    destruct (ltb x1 x0).
    + split.
      * apply StronglySorted_rev in Hch.
        eapply StronglySorted_weaken; [| exact Hch].
        intros x y Hx Hy Hxy. rewrite Forall_forall in Hg.
        apply ltb_asym; [apply Hg, in_rev | apply Hg, in_rev |]; assumption.
      * intros c Hc. rewrite filter_rev. apply rev_short.
        apply strict_filter_short; assumption.
    + split; [exact Hch | reflexivity].
Qed.

(** Where the slot found by the binary search lies in a sorted list. *)
Lemma slot_sides : forall p a k,
  good p -> Forall good a -> ascending a ->
  (0 < k -> exists y, nth_error a (k - 1) = Some y /\ ltb p y = false) ->
  (k < length a -> exists y, nth_error a k = Some y /\ ltb p y = true) ->
  Forall (fun e => ltb p e = false) (firstn k a) /\
  Forall (fun e => ltb p e = true) (skipn k a).
Proof.
  intros p a k Hp Ha Hs Hlo Hhi. rewrite Forall_forall in Ha. split.
  - destruct k as [| k]; [constructor |].
    destruct Hlo as [y [Ey Cy]]; [lia |].
    simpl in Ey. rewrite Nat.sub_0_r in Ey.
    apply nth_error_split in Ey. destruct Ey as [b1 [b2 [-> <-]]].
    replace (S (length b1)) with (length b1 + 1) by lia.
    rewrite firstn_app_2. simpl.
    apply StronglySorted_app_iff in Hs. destruct Hs as [_ [_ Hc]].
    rewrite Forall_forall. intros e He.
    apply in_app_or in He. destruct He as [He | [<- | []]]; [| assumption].
    apply ltb_ntrans with (y := y);
      [ assumption
      | apply Ha, in_or_app; right; left; reflexivity
      | apply Ha, in_or_app; left; assumption
      | assumption
      | apply Hc; [assumption | left; reflexivity] ].
  - destruct (Nat.lt_ge_cases k (length a)) as [Hk | Hk];
      [| rewrite skipn_all2 by assumption; constructor].
    destruct (Hhi Hk) as [y [Ey Cy]].
    apply nth_error_split in Ey. destruct Ey as [b1 [b2 [-> <-]]].
    rewrite skipn_app, skipn_all, Nat.sub_diag. simpl.
    apply StronglySorted_app_iff in Hs. destruct Hs as [_ [Hs _]].
    inversion Hs as [| ? ? _ Hf]; subst.
    constructor; [assumption |].
    rewrite Forall_forall in *. intros e He.
    destruct (ltb p e) eqn:C; [reflexivity |].
    rewrite <- Cy. symmetry.
    apply ltb_ntrans with (y := e);
      [ assumption
      | apply Ha, in_or_app; right; right; assumption
      | apply Ha, in_or_app; right; left; reflexivity
      | assumption
      | apply Hf; assumption ].
Qed.

Lemma insert_at_spec : forall p a k,
  good p -> Forall good a -> ascending a ->
  Forall (fun e => ltb p e = false) (firstn k a) ->
  Forall (fun e => ltb p e = true) (skipn k a) ->
  ascending (insert_at k p a) /\
  forall c, good c ->
    filter (equiv_by ltb c) (insert_at k p a) = filter (equiv_by ltb c) (a ++ [p]).
Proof.
  intros p a k Hp Ha Hs Hlo Hhi. unfold insert_at.
  assert (Ga : Forall good (firstn k a ++ skipn k a))
    by (rewrite firstn_skipn; assumption).
  apply Forall_app in Ga. destruct Ga as [G1 G2].
  rewrite <- (firstn_skipn k a) in Hs.
  apply StronglySorted_app_iff in Hs. destruct Hs as [S1 [S2 S12]].
  rewrite Forall_forall in Hlo, Hhi, G1, G2. split.
  - apply StronglySorted_app_iff. repeat split; [assumption | |].
    + constructor; [assumption |]. rewrite Forall_forall. intros e He.
      apply ltb_asym; auto.
    + intros x y Hx [<- | Hy]; auto.
  - intros c Hc. rewrite <- (firstn_skipn k a) at 3.
    rewrite !filter_app. simpl. rewrite <- app_assoc. f_equal.
    destruct (equiv_by ltb c p) eqn:E; [| rewrite app_nil_r; reflexivity].
    rewrite filter_none; [reflexivity |].
    intros y Hy. destruct (equiv_by ltb c y) eqn:Ey; [| reflexivity].
    apply equiv_by_true in E, Ey. destruct E as [E1 E2], Ey as [Y1 Y2].
    rewrite <- (Hhi y Hy).
    apply ltb_ntrans with (y := c); auto.
Qed.

Lemma binarysort_spec : forall rest a,
  Forall good a -> Forall good rest -> ascending a ->
  exists s, binarysort lt a rest = Done s /\ ascending s /\
    forall c, good c ->
      filter (equiv_by ltb c) s = filter (equiv_by ltb c) (a ++ rest).
Proof.
  induction rest as [| p rest IH]; intros a Ha Hr Hs.
  - exists a; repeat split; [assumption |]. intros; rewrite app_nil_r; reflexivity.
  - inversion Hr as [| ? ? Hp Hr']; subst. simpl.
    destruct (@bisect_slot p a Hp Ha (length a) 0 (length a))
      as [k [-> [Hb [Hlo Hhi]]]]; [lia | lia |]; simpl.
    destruct (@slot_sides p a k Hp Ha Hs Hlo Hhi) as [F1 F2].
    destruct (@insert_at_spec p a k Hp Ha Hs F1 F2) as [Hs' Hf'].
    destruct (IH (insert_at k p a)) as [s [-> [Hss Hfs]]];
      [apply insert_at_good; assumption | assumption | assumption |].
    exists s; repeat split; [assumption |].
    intros c Hc. rewrite (Hfs c Hc).
    rewrite (filter_app _ (insert_at k p a) rest), (Hf' c Hc), !filter_app.
    simpl. rewrite <- app_assoc. destruct (equiv_by ltb c p); reflexivity.
Qed.

(** On items that [<] orders, the sort returns them in ascending order
    and keeps the items of each class in the order they came in. *)
Lemma list_sort_spec : forall l,
  Forall good l ->
  exists s, list_sort lt l = Done s /\
    StronglySorted (fun x y => ltb y x = false) s /\
    forall c, good c ->
      filter (equiv_by ltb c) s = filter (equiv_by ltb c) l.
Proof.
  intros l Hl. unfold list_sort.
  destruct (count_run_good Hl) as [run [rest E]]. rewrite E; simpl.
  destruct (count_run_spec Hl E) as [run0 [-> [Hs Hf]]].
  apply count_run_perm in E.
  assert (Hg : Forall good (run ++ rest)).
  { rewrite Forall_forall in *. intros x Hx. apply Hl.
    eapply Permutation_in; eassumption. }
  apply Forall_app in Hg. destruct Hg as [G1 G2].
  destruct (binarysort_spec G1 G2 Hs) as [s [-> [Hss Hfs]]].
  exists s; repeat split; [assumption |].
  intros c Hc. rewrite (Hfs c Hc), !filter_app, (Hf c Hc). reflexivity.
Qed.
End SortSpec.

(** ** Numbers *)

Lemma Qcompare_lt_trans : forall p q r,
  Qcompare p q = Lt -> Qcompare q r = Lt -> Qcompare p r = Lt.
Proof.
  intros p q r H1 H2. apply Qlt_alt in H1, H2. apply Qlt_alt.
  eapply Qlt_trans; eassumption.
Qed.

Lemma Qcompare_nlt_trans : forall p q r,
  Qcompare p q <> Lt -> Qcompare q r <> Lt -> Qcompare p r <> Lt.
Proof.
  intros p q r H1 H2 H3. apply Qlt_alt in H3.
  assert (L1 : (q <= p)%Q) by (apply Qnot_lt_le; intro; apply H1, Qlt_alt; assumption).
  assert (L2 : (r <= q)%Q) by (apply Qnot_lt_le; intro; apply H2, Qlt_alt; assumption).
  apply (Qlt_not_le _ _ H3). eapply Qle_trans; eassumption.
Qed.

Lemma num_ltb_irrefl : forall a, num_ltb a a = false.
Proof.
  intros [| | q |]; simpl; try reflexivity.
  replace (Qcompare q q) with Eq; [reflexivity |].
  symmetry; apply Qeq_alt; reflexivity.
Qed.

Lemma num_ltb_trans : forall a b c,
  num_ltb a b = true -> num_ltb b c = true -> num_ltb a c = true.
Proof.
  intros [| | p |] [| | q |] [| | r |]; simpl; try congruence.
  destruct (Qcompare p q) eqn:E1; try discriminate.
  destruct (Qcompare q r) eqn:E2; try discriminate.
  rewrite (Qcompare_lt_trans _ _ _ E1 E2); reflexivity.
Qed.

Lemma num_ltb_ntrans : forall a b c,
  a <> NaN -> b <> NaN -> c <> NaN ->
  num_ltb a b = false -> num_ltb b c = false -> num_ltb a c = false.
Proof.
  intros [| | p |] [| | q |] [| | r |]; simpl; try congruence.
  intros _ _ _ H1 H2.
  destruct (Qcompare p r) eqn:E; try reflexivity.
  exfalso. apply (@Qcompare_nlt_trans p q r); [| | assumption].
  - destruct (Qcompare p q); congruence.
  - destruct (Qcompare q r); congruence.
Qed.

Lemma num_eqb_equiv : forall a b,
  a <> NaN -> b <> NaN -> num_eqb a b = equiv_by num_ltb a b.
Proof.
  unfold equiv_by. intros [| | p |] [| | q |]; simpl; try congruence.
  intros _ _. rewrite <- (Qcompare_antisym p q).
  destruct (Qcompare p q); reflexivity.
Qed.

(** ** Comparing keys *)

Lemma py_lt_number : forall a b,
  is_number a = true -> is_number b = true -> py_lt a b = Done (key_ltb a b).
Proof.
  intros a b Ha Hb. unfold key_ltb.
  destruct a; try discriminate; destruct b; try discriminate; reflexivity.
Qed.

Lemma ordered_key_number : forall k, ordered_key k = true -> is_number k = true.
Proof.
  intros k. unfold ordered_key. destruct k; simpl; try discriminate; reflexivity.
Qed.

Lemma ordered_key_not_nan : forall k,
  ordered_key k = true -> exists n, as_number k = Some n /\ n <> NaN.
Proof.
  intros k. unfold ordered_key.
  destruct (as_number k) as [[| | q |] |]; try discriminate; intros _;
    eexists; (split; [reflexivity | discriminate]).
Qed.

Lemma key_ltb_irrefl : forall k, key_ltb k k = false.
Proof.
  intros k. unfold key_ltb. destruct (as_number k); [apply num_ltb_irrefl | reflexivity].
Qed.

Lemma key_ltb_trans : forall a b c,
  key_ltb a b = true -> key_ltb b c = true -> key_ltb a c = true.
Proof.
  unfold key_ltb. intros a b c.
  destruct (as_number a), (as_number b), (as_number c); try discriminate.
  apply num_ltb_trans.
Qed.

Lemma key_ltb_ntrans : forall a b c,
  ordered_key a = true -> ordered_key b = true -> ordered_key c = true ->
  key_ltb a b = false -> key_ltb b c = false -> key_ltb a c = false.
Proof.
  intros a b c Ha Hb Hc.
  destruct (ordered_key_not_nan _ Ha) as [x [Ex Nx]].
  destruct (ordered_key_not_nan _ Hb) as [y [Ey Ny]].
  destruct (ordered_key_not_nan _ Hc) as [z [Ez Nz]].
  unfold key_ltb. rewrite Ex, Ey, Ez. apply num_ltb_ntrans; assumption.
Qed.

(** ** [sorted] on tasks *)

Lemma StronglySorted_map : forall (A B : Type) (R : B -> B -> Prop) (f : A -> B) l,
  StronglySorted (fun x y => R (f x) (f y)) l -> StronglySorted R (map f l).
Proof.
  induction 1 as [| a l Hs IH Hf]; simpl; constructor; [assumption |].
  rewrite Forall_forall in *. intros y Hy.
  apply in_map_iff in Hy. destruct Hy as [x [<- Hx]]. auto.
Qed.

Lemma filter_map_comm : forall (A B : Type) (f : B -> bool) (g : A -> B) l,
  filter f (map g l) = map g (filter (fun x => f (g x)) l).
Proof.
  induction l as [| a l IH]; simpl; [reflexivity |].
  destruct (f (g a)); simpl; rewrite IH; reflexivity.
Qed.

Lemma priority_key_dict : forall t,
  is_dict t = true -> priority_key t = Done (key_of t).
Proof. intros [] H; try discriminate; reflexivity. Qed.

Lemma sorted_reverse_keyed : forall (A : Type) (key : A -> outcome value) kf xs,
  (forall x, In x xs -> key x = Done (kf x)) ->
  sorted_reverse key xs =
  (s <- list_sort (fun a b => py_lt (fst a) (fst b))
                  (rev (map (fun x => (kf x, x)) xs)) ;;
   Done (map snd (rev s))).
Proof.
  intros A key kf xs H. unfold sorted_reverse.
  rewrite (@map_each_pure _ _ _ (fun x => (kf x, x))); [reflexivity |].
  intros x Hx. rewrite (H x Hx); reflexivity.
Qed.

(** Whatever the keys are, [sorted] returns its input rearranged. *)
Lemma sorted_reverse_perm : forall (A : Type) (key : A -> outcome value) xs s,
  sorted_reverse key xs = Done s -> Permutation s xs.
Proof.
  intros A key xs s H. unfold sorted_reverse in H.
  apply bind_done in H. destruct H as [keyed [Hk H]].
  apply bind_done in H. destruct H as [s0 [Hs H]].
  inversion H; subst. apply list_sort_perm in Hs.
  rewrite <- (Permutation_rev s0), Hs, <- (Permutation_rev keyed).
  replace xs with (map snd keyed); [apply Permutation_refl |].
  apply map_each_done in Hk. clear Hs.
  induction Hk as [| x y xs ys Hxy Hk' IH]; simpl; [reflexivity |].
  destruct (key x); simpl in Hxy; try discriminate.
  inversion Hxy. simpl. rewrite IH; reflexivity.
Qed.

(** With numbers for keys no comparison raises. *)
Lemma sorted_reverse_numbers : forall (A : Type) (key : A -> outcome value) kf xs,
  (forall x, In x xs -> key x = Done (kf x)) ->
  (forall x, In x xs -> is_number (kf x) = true) ->
  exists s, sorted_reverse key xs = Done s.
Proof.
  intros A key kf xs Hk Hn. rewrite (sorted_reverse_keyed _ _ _ Hk).
  destruct (@list_sort_good _ (fun a b : value * A => py_lt (fst a) (fst b))
              (fun a b => key_ltb (fst a) (fst b))
              (fun p => is_number (fst p) = true))
    with (l := rev (map (fun x => (kf x, x)) xs)) as [s ->].
  - intros x y Hx Hy. apply py_lt_number; assumption.
  - rewrite Forall_forall. intros p Hp. apply in_rev in Hp.
    apply in_map_iff in Hp. destruct Hp as [x [<- Hx]]. simpl; auto.
  - simpl; eauto.
Qed.

(** With keys that [<] orders, [sorted] returns the items by descending
    key and keeps the items of equal keys in the order they came in. *)
Lemma sorted_reverse_ordered : forall (A : Type) (key : A -> outcome value) kf xs,
  (forall x, In x xs -> key x = Done (kf x)) ->
  (forall x, In x xs -> ordered_key (kf x) = true) ->
  exists s, sorted_reverse key xs = Done s /\
    StronglySorted (fun x y => key_ltb (kf x) (kf y) = false) s /\
    forall c, ordered_key (kf c) = true ->
      filter (fun x => equiv_by key_ltb (kf c) (kf x)) s =
      filter (fun x => equiv_by key_ltb (kf c) (kf x)) xs.
Proof.
  intros A key kf xs Hk Ho. rewrite (sorted_reverse_keyed _ _ _ Hk).
  set (keyed := map (fun x => (kf x, x)) xs).
  set (lt := fun a b : value * A => py_lt (fst a) (fst b)).
  set (ltb := fun a b : value * A => key_ltb (fst a) (fst b)).
  set (good := fun p : value * A => ordered_key (fst p) = true).
  assert (Hg : Forall good (rev keyed)).
  { rewrite Forall_forall. intros p Hp. apply in_rev in Hp.
    apply in_map_iff in Hp. destruct Hp as [x [<- Hx]]. apply Ho; assumption. }
  destruct (@list_sort_spec _ lt ltb good) with (l := rev keyed)
    as [s0 [Hs [Hsorted Hstable]]]; try assumption.
  - intros x y Hx Hy. apply py_lt_number; apply ordered_key_number; assumption.
  - intros x _. apply key_ltb_irrefl.
  - intros x y z _ _ _. apply key_ltb_trans.
  - intros x y z. apply key_ltb_ntrans.
  - rewrite Hs; simpl. eexists; split; [reflexivity |].
    assert (Hin : forall p, In p s0 -> fst p = kf (snd p)).
    { intros p Hp. apply (Permutation_in _ (list_sort_perm _ _ Hs)) in Hp.
      apply in_rev in Hp. apply in_map_iff in Hp.
      destruct Hp as [x [<- _]]; reflexivity. }
    split.
    + apply StronglySorted_map. apply StronglySorted_rev in Hsorted.
      eapply StronglySorted_weaken; [| exact Hsorted].
      intros x y Hx Hy. apply in_rev in Hx, Hy. unfold ltb.
      rewrite (Hin x Hx), (Hin y Hy). auto.
    + intros c Hc. specialize (Hstable (kf c, c) Hc).
      rewrite filter_map_comm.
      rewrite (filter_ext_in _ (equiv_by ltb (kf c, c))).
      2:{ intros p Hp. apply in_rev in Hp. unfold equiv_by, ltb; simpl.
          rewrite (Hin p Hp); reflexivity. }
      rewrite filter_rev, Hstable, filter_rev, rev_involutive.
      unfold keyed. rewrite filter_map_comm, map_map; simpl.
      rewrite map_id. reflexivity.
Qed.

(** ** Depth and recursion budget *)

Lemma list_max_in : forall (A : Type) (f : A -> nat) l x,
  In x l -> f x <= list_max (map f l).
Proof.
  intros A f l x H.
  assert (Hm : Forall (fun k => k <= list_max (map f l)) (map f l))
    by (apply list_max_le; lia).
  rewrite Forall_forall in Hm. apply Hm, in_map; assumption.
Qed.

Lemma get_in : forall (A : Type) k (d : list (string * A)) v,
  get k d = Some v -> exists k', In (k', v) d.
Proof.
  induction d as [| [k' w] d IH]; simpl; intros v H; [discriminate |].
  destruct (String.eqb k' k).
  - inversion H; subst. exists k'; left; reflexivity.
  - destruct (IH _ H) as [k'' Hin]. exists k''; right; assumption.
Qed.

Lemma vdepth_get : forall k d v, get k d = Some v -> vdepth v < vdepth (VDict d).
Proof.
  intros k d v H. apply get_in in H. destruct H as [k' H]. simpl.
  apply Nat.lt_succ_r.
  apply (list_max_in (fun kv : string * value => vdepth (snd kv)) d (k', v) H).
Qed.

Lemma vdepth_in : forall l c, In c l -> vdepth c < vdepth (VList l).
Proof.
  intros l c H. simpl. apply Nat.lt_succ_r. apply list_max_in; assumption.
Qed.

Lemma vdepth_subtasks : forall d l c,
  get "subtasks" d = Some (VList l) -> In c l -> S (vdepth c) < vdepth (VDict d).
Proof.
  intros d l c Hg Hc. apply vdepth_get in Hg. apply vdepth_in in Hc. lia.
Qed.

Lemma validate_task_fuel : forall n m t,
  vdepth t < n -> vdepth t < m -> validate_task n t = validate_task m t.
Proof.
  induction n as [| n IH]; intros m t Hn Hm; [lia |].
  destruct m as [| m]; [lia |]. simpl.
  destruct t as [| | | | | | d]; try reflexivity.
  destruct (get "name" d) as [[] |]; try reflexivity.
  destruct (get "subtasks" d) as [[| | | | | l |] |] eqn:E; try reflexivity.
  rewrite (@for_each_ext _ (validate_task n) (validate_task m) l); [reflexivity |].
  intros c Hc. pose proof (@vdepth_subtasks _ _ _ E Hc). apply IH; lia.
Qed.

Lemma traverse_fuel : forall n m t,
  vdepth t < n -> vdepth t < m ->
  traverse_and_schedule n t = traverse_and_schedule m t.
Proof.
  induction n as [| n IH]; intros m t Hn Hm; [lia |].
  destruct m as [| m]; [lia |].
  cbn [traverse_and_schedule].
  rewrite (validate_task_fuel (n := S n) (m := S m)) by assumption.
  destruct t as [| | | | | | d]; try reflexivity.
  destruct (get "subtasks" d) as [[| | | | | l |] |] eqn:E; try reflexivity.
  destruct (sorted_reverse priority_key l) as [s | |] eqn:S; try reflexivity.
  cbn [bind]. rewrite (@extend_each_ext _ _ (traverse_and_schedule n)
                         (traverse_and_schedule m)); [reflexivity |].
  intros c Hc. apply (Permutation_in _ (sorted_reverse_perm _ _ S)) in Hc.
  pose proof (@vdepth_subtasks _ _ _ E Hc). apply IH; lia.
Qed.

Lemma subtree_sequence_fuel : forall n t,
  vdepth t < n -> traverse_and_schedule n t = subtree_sequence t.
Proof. intros n t H. apply traverse_fuel; [assumption | lia]. Qed.

Lemma validate_fuel : forall n t,
  vdepth t < n -> validate_task n t = validate t.
Proof. intros n t H. apply validate_task_fuel; [assumption | lia]. Qed.

(** ** The three functions, without budgets *)

Lemma validate_dict : forall d,
  validate (VDict d) =
  match get "name" d with
  | Some (VStr _) =>
      match get "priority" d with
      | Some p => if is_number p then Done tt else Raise (ValueError msg_priority)
      | None => Done tt
      end ;;;
      match get "subtasks" d with
      | Some (VList l) => for_each validate l
      | Some _ => Raise (ValueError msg_subtasks)
      | None => Done tt
      end
  | _ => Raise (ValueError msg_name)
  end.
Proof.
  intros d. unfold validate at 1. cbn [validate_task].
  destruct (get "name" d) as [[] |]; try reflexivity.
  destruct (get "subtasks" d) as [[| | | | | l |] |] eqn:E; try reflexivity.
  rewrite (@for_each_ext _ (validate_task (vdepth (VDict d))) validate l);
    [reflexivity |].
  intros c Hc. pose proof (@vdepth_subtasks _ _ _ E Hc). apply validate_fuel; lia.
Qed.

Lemma validate_not_dict : forall t,
  is_dict t = false -> validate t = Raise (ValueError msg_not_dict).
Proof. intros [] H; try discriminate; reflexivity. Qed.

Lemma subtree_sequence_dict : forall d,
  subtree_sequence (VDict d) =
  (validate (VDict d) ;;;
   tasks <- match get "subtasks" d with
            | Some (VList l) =>
                subtasks <- sorted_reverse priority_key l ;;
                extend_each subtree_sequence [] subtasks
            | Some _ => Raise TypeError
            | None => Done []
            end ;;
   match get "name" d with
   | Some name => Done (tasks ++ [name])
   | None => Raise KeyError
   end).
Proof.
  intros d. unfold subtree_sequence at 1. cbn [traverse_and_schedule].
  fold (validate (VDict d)).
  destruct (get "subtasks" d) as [[| | | | | l |] |] eqn:E; try reflexivity.
  destruct (sorted_reverse priority_key l) as [s | |] eqn:S; try reflexivity.
  cbn [bind]. rewrite (@extend_each_ext _ _ (traverse_and_schedule (vdepth (VDict d)))
                         subtree_sequence); [reflexivity |].
  intros c Hc. apply (Permutation_in _ (sorted_reverse_perm _ _ S)) in Hc.
  pose proof (@vdepth_subtasks _ _ _ E Hc). apply subtree_sequence_fuel; lia.
Qed.

Lemma subtree_sequence_not_dict : forall t,
  is_dict t = false -> subtree_sequence t = Raise (ValueError msg_not_dict).
Proof. intros [] H; try discriminate; reflexivity. Qed.

Lemma schedule_tasks_list : forall ts,
  schedule_tasks (VList ts) =
  if forallb is_dict ts then
    sorted_tasks <- sorted_reverse priority_key ts ;;
    extend_each subtree_sequence [] sorted_tasks
  else Raise (ValueError msg_top_level).
Proof.
  intros ts. unfold schedule_tasks.
  destruct (forallb is_dict ts); [| reflexivity].
  destruct (sorted_reverse priority_key ts) as [s | |] eqn:S; try reflexivity.
  cbn [bind]. apply extend_each_ext.
  intros c Hc. apply (Permutation_in _ (sorted_reverse_perm _ _ S)) in Hc.
  apply vdepth_in in Hc. apply subtree_sequence_fuel; lia.
Qed.

(** ** Tasks, subtasks and validity *)

Lemma nodes_unfold : forall v, nodes v = v :: flat_map nodes (subtasks_of v).
Proof.
  intros [| | | | | | d]; try reflexivity.
  simpl. f_equal. induction d as [| [k x] d IH]; simpl; [reflexivity |].
  destruct (String.eqb k "subtasks"); [| assumption].
  destruct x; reflexivity.
Qed.

Lemma nodes_self : forall v, In v (nodes v).
Proof. intros v. rewrite nodes_unfold. left; reflexivity. Qed.

Lemma nodes_below : forall t c n,
  In c (subtasks_of t) -> In n (nodes c) -> In n (nodes t).
Proof.
  intros t c n Hc Hn. rewrite (nodes_unfold t). right.
  apply in_flat_map. exists c; split; assumption.
Qed.

Lemma subtasks_of_depth : forall t c, In c (subtasks_of t) -> S (vdepth c) < vdepth t.
Proof.
  intros [| | | | | | d] c H; simpl in H; try contradiction.
  destruct (get "subtasks" d) as [[| | | | | l |] |] eqn:E; try contradiction.
  eapply vdepth_subtasks; eassumption.
Qed.

(** What an accepted task looks like. *)
Lemma validate_done_inv : forall t,
  validate t = Done tt ->
  exists d s, t = VDict d /\ get "name" d = Some (VStr s) /\ priority_ok d /\
    (get "subtasks" d = None \/ get "subtasks" d = Some (VList (subtasks_of t))) /\
    Forall (fun c => validate c = Done tt) (subtasks_of t).
Proof.
  intros t H. destruct t as [| | | | | | d]; try discriminate.
  rewrite validate_dict in H. simpl.
  destruct (get "name" d) as [[| | | | s | |] |] eqn:En; try discriminate.
  exists d, s. split; [reflexivity |]. split; [exact En |].
  assert (Hp : priority_ok d /\
               (match get "subtasks" d with
                | Some (VList l) => for_each validate l
                | Some _ => Raise (ValueError msg_subtasks)
                | None => Done tt
                end) = Done tt).
  { unfold priority_ok.
    destruct (get "priority" d) as [p |]; [| split; [exact I | exact H]].
    destruct (is_number p); [split; [reflexivity | exact H] | discriminate]. }
  destruct Hp as [Hp Hs]. split; [exact Hp |].
  destruct (get "subtasks" d) as [[| | | | | l |] |]; try discriminate.
  - split; [right; reflexivity | apply for_each_done; assumption].
  - split; [left; reflexivity | constructor].
Qed.

Lemma validate_done_key : forall t,
  validate t = Done tt -> is_dict t = true /\ is_number (key_of t) = true.
Proof.
  intros t H. destruct (validate_done_inv _ H) as [d [s [-> [_ [Hp _]]]]].
  split; [reflexivity |]. unfold key_of, priority_ok in *; simpl.
  destruct (get "priority" d); [assumption | reflexivity].
Qed.

Lemma valid_task_validate : forall n t,
  vdepth t < n -> valid_task t -> validate t = Done tt.
Proof.
  induction n as [| n IH]; intros t Hn Hv; [lia |].
  destruct Hv as [d s Hname Hp Hs | d s l Hname Hp Hs Hl];
    rewrite validate_dict, Hname, Hs; unfold priority_ok in Hp;
    (destruct (get "priority" d); [rewrite Hp |]); simpl; try reflexivity.
  - apply for_each_done. rewrite Forall_forall in *. intros c Hc.
    pose proof (@vdepth_subtasks _ _ _ Hs Hc). apply IH; [lia | auto].
  - apply for_each_done. rewrite Forall_forall in *. intros c Hc.
    pose proof (@vdepth_subtasks _ _ _ Hs Hc). apply IH; [lia | auto].
Qed.

Lemma validate_valid_task : forall n t,
  vdepth t < n -> validate t = Done tt -> valid_task t.
Proof.
  induction n as [| n IH]; intros t Hn Hv; [lia |].
  destruct (validate_done_inv _ Hv) as [d [s [-> [Hname [Hp [[Hs | Hs] Hc]]]]]].
  - eapply valid_leaf; eassumption.
  - eapply valid_node; try eassumption.
    rewrite Forall_forall in *. intros c Hin.
    pose proof (subtasks_of_depth _ _ Hin). apply IH; [lia | auto].
Qed.

(** ** The sequence of a subtree *)

Lemma subtree_sequence_raise : forall t e,
  validate t = Raise e -> subtree_sequence t = Raise e.
Proof.
  intros t e H. destruct (is_dict t) eqn:D.
  - destruct t; try discriminate. rewrite subtree_sequence_dict, H; reflexivity.
  - rewrite (validate_not_dict _ D) in H.
    rewrite (subtree_sequence_not_dict _ D). inversion H; reflexivity.
Qed.

Lemma subtree_sequence_inv : forall t s,
  subtree_sequence t = Done s ->
  validate t = Done tt /\
  exists sl rs,
    sorted_reverse priority_key (subtasks_of t) = Done sl /\
    Forall2 (fun c r => subtree_sequence c = Done r) sl rs /\
    s = concat rs ++ [name_of t].
Proof.
  intros t s H. destruct t as [| | | | | | d]; try discriminate.
  rewrite subtree_sequence_dict in H.
  apply bind_done in H. destruct H as [[] [Hv H]]. split; [assumption |].
  apply bind_done in H. destruct H as [tasks [Ht H]].
  destruct (validate_done_inv _ Hv) as [d' [s' [Ed [Hname [_ [[Hs | Hs] _]]]]]];
    inversion Ed; subst d'; simpl; rewrite Hs in *; rewrite Hname in *;
    inversion H; subst.
  - inversion Ht; subst. exists [], []. repeat split; constructor.
  - apply bind_done in Ht. destruct Ht as [sl [Hsl Hext]].
    apply extend_each_done in Hext. destruct Hext as [rs [Hrs ->]].
    simpl in Hsl. rewrite Hs in Hsl. exists sl, rs. auto.
Qed.

Lemma subtree_sequence_valid : forall n t,
  vdepth t < n -> validate t = Done tt -> exists s, subtree_sequence t = Done s.
Proof.
  induction n as [| n IH]; intros t Hn Hv; [lia |].
  destruct (validate_done_inv _ Hv) as [d [s [-> [Hname [_ [[Hs | Hs] Hc]]]]]];
    remember (subtasks_of (VDict d)) as l eqn:El;
    rewrite subtree_sequence_dict, Hv, Hs, Hname; cbn [bind]; [eauto |].
  rewrite Forall_forall in Hc.
  destruct (@sorted_reverse_numbers _ priority_key key_of l) as [sl Hsl].
  - intros c Hin. apply priority_key_dict, validate_done_key; auto.
  - intros c Hin. apply validate_done_key; auto.
  - rewrite Hsl; cbn [bind].
    destruct (@extend_each_total _ _ subtree_sequence sl []) as [out ->];
      [| cbn [bind]; eauto].
    rewrite Forall_forall. intros c Hin.
    apply (Permutation_in _ (sorted_reverse_perm _ _ Hsl)) in Hin.
    assert (Hd : S (vdepth c) < vdepth (VDict d))
      by (apply subtasks_of_depth; rewrite <- El; assumption).
    apply IH; [lia | auto].
Qed.

Lemma schedule_tasks_inv : forall ts out,
  schedule_tasks (VList ts) = Done out ->
  forallb is_dict ts = true /\
  exists sl rs,
    sorted_reverse priority_key ts = Done sl /\
    Forall2 (fun c r => subtree_sequence c = Done r) sl rs /\
    out = concat rs.
Proof.
  intros ts out H. rewrite schedule_tasks_list in H.
  destruct (forallb is_dict ts); [| discriminate]. split; [reflexivity |].
  apply bind_done in H. destruct H as [sl [Hsl H]].
  apply extend_each_done in H. destruct H as [rs [Hrs ->]].
  exists sl, rs; auto.
Qed.

Lemma map_flat_map_comm : forall (A B C : Type) (f : B -> C) (g : A -> list B) l,
  map f (flat_map g l) = flat_map (fun x => map f (g x)) l.
Proof.
  induction l as [| a l IH]; simpl; [reflexivity |].
  rewrite map_app, IH; reflexivity.
Qed.

Lemma Forall2_concat_perm : forall (A B : Type) (g : A -> list B) sl rs,
  Forall2 (fun c r => Permutation r (g c)) sl rs ->
  Permutation (concat rs) (flat_map g sl).
Proof.
  induction 1 as [| c r sl rs Hr _ IH]; simpl; [constructor |].
  apply Permutation_app; assumption.
Qed.

(** The sequence of a subtree holds the name of each of its tasks once. *)
Lemma subtree_sequence_names : forall n t s,
  vdepth t < n -> subtree_sequence t = Done s ->
  Permutation s (map name_of (nodes t)).
Proof.
  induction n as [| n IH]; intros t s Hn H; [lia |].
  destruct (subtree_sequence_inv _ H) as [_ [sl [rs [Hsl [Hrs ->]]]]].
  rewrite nodes_unfold. simpl.
  rewrite <- Permutation_cons_append. apply perm_skip.
  rewrite map_flat_map_comm.
  pose proof (sorted_reverse_perm _ _ Hsl) as Hp.
  rewrite <- (Permutation_flat_map _ Hp).
  apply Forall2_concat_perm.
  assert (Hin : forall c, In c sl -> S (vdepth c) < vdepth t).
  { intros c Hc. apply subtasks_of_depth. eapply Permutation_in; eassumption. }
  clear Hsl Hp H. induction Hrs as [| c r sl rs Hr _ IHrs]; constructor.
  - apply IH; [| assumption]. specialize (Hin c (or_introl eq_refl)). lia.
  - apply IHrs. intros c' Hc'. apply Hin; right; assumption.
Qed.

(** The sequence of every task of a subtree is a block of the sequence of
    the subtree. *)
Lemma subtree_sequence_block : forall n t s m,
  vdepth t < n -> subtree_sequence t = Done s -> In m (nodes t) ->
  exists sm pre post, subtree_sequence m = Done sm /\ s = pre ++ sm ++ post.
Proof.
  induction n as [| n IH]; intros t s m Hn H Hm; [lia |].
  rewrite nodes_unfold in Hm. destruct Hm as [<- | Hm].
  - exists s, [], []. rewrite app_nil_r. auto.
  - apply in_flat_map in Hm. destruct Hm as [c [Hc Hm]].
    destruct (subtree_sequence_inv _ H) as [_ [sl [rs [Hsl [Hrs ->]]]]].
    pose proof (subtasks_of_depth _ _ Hc) as Hd.
    apply (Permutation_in _ (Permutation_sym (sorted_reverse_perm _ _ Hsl))) in Hc.
    destruct (@Forall2_In_l _ _ _ _ _ _ Hrs Hc) as [r [r1 [r2 [Hr ->]]]].
    destruct (IH c r m) as [sm [pre [post [Hsm ->]]]]; [lia | assumption | assumption |].
    exists sm, (concat r1 ++ pre), (post ++ concat r2 ++ [name_of t]).
    split; [assumption |].
    rewrite concat_app. simpl. rewrite <- !app_assoc. reflexivity.
Qed.

Lemma schedule_tasks_block : forall ts out m,
  schedule_tasks (VList ts) = Done out -> In m (forest_nodes ts) ->
  exists sm pre post, subtree_sequence m = Done sm /\ out = pre ++ sm ++ post.
Proof.
  intros ts out m H Hm.
  destruct (schedule_tasks_inv _ H) as [_ [sl [rs [Hsl [Hrs ->]]]]].
  apply in_flat_map in Hm. destruct Hm as [t [Ht Hm]].
  apply (Permutation_in _ (Permutation_sym (sorted_reverse_perm _ _ Hsl))) in Ht.
  destruct (@Forall2_In_l _ _ _ _ _ _ Hrs Ht) as [r [r1 [r2 [Hr ->]]]].
  destruct (@subtree_sequence_block (S (vdepth t)) t r m)
    as [sm [pre [post [Hsm ->]]]]; [lia | assumption | assumption |].
  exists sm, (concat r1 ++ pre), (post ++ concat r2).
  split; [assumption |].
  rewrite concat_app. simpl. rewrite <- !app_assoc. reflexivity.
Qed.

(** The sequences of the siblings of a list, in sorted order, make a block
    of the output. *)
Lemma sibling_group_block : forall ts out g,
  schedule_tasks (VList ts) = Done out -> In g (sibling_groups ts) ->
  exists sl rs pre post,
    sorted_reverse priority_key g = Done sl /\
    Forall2 (fun c r => subtree_sequence c = Done r) sl rs /\
    out = pre ++ concat rs ++ post.
Proof.
  intros ts out g H [<- | Hg].
  - destruct (schedule_tasks_inv _ H) as [_ [sl [rs [Hsl [Hrs ->]]]]].
    exists sl, rs, [], []. rewrite app_nil_r. auto.
  - apply in_map_iff in Hg. destruct Hg as [m [<- Hm]].
    destruct (@schedule_tasks_block _ _ _ H Hm) as [sm [pre [post [Hsm ->]]]].
    destruct (subtree_sequence_inv _ Hsm) as [_ [sl [rs [Hsl [Hrs ->]]]]].
    exists sl, rs, pre, ([name_of m] ++ post).
    repeat split; try assumption. rewrite <- !app_assoc. reflexivity.
Qed.

(** ** Valid hierarchies are scheduled *)

Lemma valid_forest_scheduled : forall ts,
  Forall valid_task ts -> exists out, schedule_tasks (VList ts) = Done out.
Proof.
  intros ts Hv.
  assert (Hval : forall t, In t ts -> validate t = Done tt).
  { rewrite Forall_forall in Hv. intros t Ht.
    apply (@valid_task_validate (S (vdepth t))); [lia | auto]. }
  rewrite schedule_tasks_list.
  replace (forallb is_dict ts) with true.
  2:{ symmetry. apply forallb_forall. intros t Ht. apply validate_done_key; auto. }
  destruct (@sorted_reverse_numbers _ priority_key key_of ts) as [sl Hsl].
  - intros t Ht. apply priority_key_dict, validate_done_key; auto.
  - intros t Ht. apply validate_done_key; auto.
  - rewrite Hsl; cbn [bind]. apply extend_each_total.
    rewrite Forall_forall. intros t Ht.
    apply (Permutation_in _ (sorted_reverse_perm _ _ Hsl)) in Ht.
    apply (@subtree_sequence_valid (S (vdepth t))); [lia | auto].
Qed.

Lemma scheduled_forest_valid : forall ts out,
  schedule_tasks (VList ts) = Done out -> Forall valid_task ts.
Proof.
  intros ts out H.
  destruct (schedule_tasks_inv _ H) as [_ [sl [rs [Hsl [Hrs _]]]]].
  rewrite Forall_forall. intros t Ht.
  apply (Permutation_in _ (Permutation_sym (sorted_reverse_perm _ _ Hsl))) in Ht.
  destruct (@Forall2_In_l _ _ _ _ _ _ Hrs Ht) as [r [_ [_ [Hr _]]]].
  apply (@validate_valid_task (S (vdepth t))); [lia |].
  apply (subtree_sequence_inv _ Hr).
Qed.

(** ** Priorities of tasks *)

Lemma has_order_key : forall t,
  has_order t = true -> is_dict t = true /\ ordered_key (key_of t) = true.
Proof.
  intros [| | | | | | d]; try discriminate. intros H. split; [reflexivity |].
  exact H.
Qed.

Lemma higher_priority_key : forall x y,
  is_dict x = true -> is_dict y = true ->
  higher_priority x y = key_ltb (key_of y) (key_of x).
Proof.
  intros [| | | | | | d] [| | | | | | e]; try discriminate. intros _ _.
  unfold higher_priority, priority, key_ltb, key_of. simpl.
  destruct (as_number _), (as_number _); reflexivity.
Qed.

Lemma same_priority_key : forall x y,
  has_order x = true -> has_order y = true ->
  same_priority x y = equiv_by key_ltb (key_of x) (key_of y).
Proof.
  intros x y Hx Hy.
  destruct (has_order_key _ Hx) as [Dx Ox], (has_order_key _ Hy) as [Dy Oy].
  destruct (ordered_key_not_nan _ Ox) as [a [Ea Na]].
  destruct (ordered_key_not_nan _ Oy) as [b [Eb Nb]].
  destruct x; try discriminate; destruct y; try discriminate.
  unfold same_priority, priority, equiv_by, key_ltb, key_of in *. simpl in *.
  rewrite Ea, Eb. apply num_eqb_equiv; assumption.
Qed.

(** A list of siblings whose priorities compare is scheduled by descending
    priority, siblings of equal priority in the order of the input. *)
Lemma sorted_siblings : forall g sl,
  forallb has_order g = true -> sorted_reverse priority_key g = Done sl ->
  StronglySorted (fun x y => key_ltb (key_of x) (key_of y) = false) sl /\
  forall c, has_order c = true ->
    filter (fun x => equiv_by key_ltb (key_of c) (key_of x)) sl =
    filter (fun x => equiv_by key_ltb (key_of c) (key_of x)) g.
Proof.
  intros g sl Hg Hsl. rewrite forallb_forall in Hg.
  destruct (@sorted_reverse_ordered _ priority_key key_of g) as [s [Hs [H1 H2]]].
  - intros x Hx. apply priority_key_dict, has_order_key; auto.
  - intros x Hx. apply has_order_key; auto.
  - rewrite Hs in Hsl. inversion Hsl; subst. split; [assumption |].
    intros c Hc. apply H2. apply has_order_key; assumption.
Qed.

(** ** The scenarios and the ordering properties *)

Lemma basic_forest_valid : Forall valid_task basic_forest.
Proof.
  apply Forall_forall. intros t [<- | [<- | []]];
    apply (@validate_valid_task 10); solve [simpl; lia | vm_compute; reflexivity].
Qed.

(** C1 (as amended): on the hierarchy of the first scenario the operation
    returns the sequence C, D, B, A, E: among the subtasks of A, C (priority
    3) is scheduled before B (priority 1) and its subtask D. *)
Theorem basic_hierarchy_schedule :
  schedule_tasks basic_hierarchy =
  Done [VStr "C"; VStr "D"; VStr "B"; VStr "A"; VStr "E"].
Proof. vm_compute. reflexivity. Qed.

(** C1 (as stated) fails: the sequence returned is not D, B, C, A, E. *)
Lemma basic_hierarchy_not_D_first :
  schedule_tasks basic_hierarchy <>
  Done [VStr "D"; VStr "B"; VStr "C"; VStr "A"; VStr "E"].
Proof. vm_compute. discriminate. Qed.

(** C3 (as amended): in a valid forest, of two siblings of a list where
    every priority compares (none is NaN), the one of higher priority has
    its whole subtree sequence in the output before the whole subtree
    sequence of the other. *)
Theorem higher_priority_sibling_first : forall ts g x y,
  Forall valid_task ts ->
  In g (sibling_groups ts) -> forallb has_order g = true ->
  In x g -> In y g -> higher_priority x y = true ->
  exists out sx sy pre mid post,
    schedule_tasks (VList ts) = Done out /\
    subtree_sequence x = Done sx /\ subtree_sequence y = Done sy /\
    out = pre ++ sx ++ mid ++ sy ++ post.
Proof.
  intros ts g x y Hv Hg Ho Hx Hy Hxy.
  destruct (valid_forest_scheduled Hv) as [out Hout].
  destruct (@sibling_group_block ts out g Hout Hg) as [sl [rs [pre [post [Hsl [Hrs ->]]]]]].
  destruct (@sorted_siblings g sl Ho Hsl) as [Hsorted _].
  pose proof (sorted_reverse_perm _ _ Hsl) as Hp.
  rewrite forallb_forall in Ho.
  rewrite higher_priority_key in Hxy by (apply has_order_key; auto).
  assert (Hsplit : exists s1 s2 s3, sl = s1 ++ x :: s2 ++ y :: s3).
  { apply (Permutation_in _ (Permutation_sym Hp)) in Hx, Hy.
    apply in_split in Hx. destruct Hx as [s1 [s2 ->]].
    apply in_app_or in Hy. destruct Hy as [Hy | [-> | Hy]].
    - exfalso. apply in_split in Hy. destruct Hy as [a [b ->]].
      rewrite <- app_assoc in Hsorted. simpl in Hsorted.
      apply StronglySorted_order in Hsorted. congruence.
    - rewrite key_ltb_irrefl in Hxy. discriminate.
    - apply in_split in Hy. destruct Hy as [b [c ->]]. eauto. }
  destruct Hsplit as [s1 [s2 [s3 ->]]].
  destruct (@Forall2_app_inv_l2 _ _ _ _ _ _ _ _ _ Hrs) as [r1 [sx [r2 [sy [r3 [-> [Hsx Hsy]]]]]]].
  exists (pre ++ concat (r1 ++ sx :: r2 ++ sy :: r3) ++ post), sx, sy,
    (pre ++ concat r1), (concat r2), (concat r3 ++ post).
  repeat split; try assumption.
  rewrite concat_split2, <- !app_assoc. reflexivity.
Qed.

Lemma higher_priority_sibling_first_witness :
  Forall valid_task basic_forest /\
  In [task_B; task_C] (sibling_groups basic_forest) /\
  forallb has_order [task_B; task_C] = true /\
  In task_C [task_B; task_C] /\ In task_B [task_B; task_C] /\
  higher_priority task_C task_B = true /\
  exists out sx sy pre mid post,
    schedule_tasks (VList basic_forest) = Done out /\
    subtree_sequence task_C = Done sx /\ subtree_sequence task_B = Done sy /\
    out = pre ++ sx ++ mid ++ sy ++ post.
Proof.
  assert (H1 : Forall valid_task basic_forest) by exact basic_forest_valid.
  assert (H2 : In [task_B; task_C] (sibling_groups basic_forest))
    by (right; left; reflexivity).
  assert (H3 : forallb has_order [task_B; task_C] = true) by reflexivity.
  assert (H4 : In task_C [task_B; task_C]) by (right; left; reflexivity).
  assert (H5 : In task_B [task_B; task_C]) by (left; reflexivity).
  assert (H6 : higher_priority task_C task_B = true) by reflexivity.
  repeat (split; [assumption |]).
  exact (@higher_priority_sibling_first basic_forest [task_B; task_C] task_C task_B
           H1 H2 H3 H4 H5 H6).
Defined.

(** C3 (as stated) fails on three valid siblings of priorities 1, NaN and
    2: no comparison with NaN is true, the list is taken to be in order
    already, and the sibling of priority 1 stays before the one of
    priority 2. *)
Lemma nan_breaks_priority_order :
  schedule_tasks (VList nan_siblings) = Done [VStr "a"; VStr "b"; VStr "c"] /\
  ~ (forall ts g x y,
       Forall valid_task ts -> In g (sibling_groups ts) ->
       In x g -> In y g -> higher_priority x y = true ->
       exists out sx sy pre mid post,
         schedule_tasks (VList ts) = Done out /\
         subtree_sequence x = Done sx /\ subtree_sequence y = Done sy /\
         out = pre ++ sx ++ mid ++ sy ++ post).
Proof.
  split; [vm_compute; reflexivity |]. intros H.
  destruct (H nan_siblings nan_siblings
              (task "c" [("priority", VInt 2)]) (task "a" [("priority", VInt 1)]))
    as [out [sx [sy [pre [mid [post [Hout [Hx [Hy E]]]]]]]]].
  - apply Forall_forall. intros t [<- | [<- | [<- | []]]];
      apply (@validate_valid_task 10); solve [simpl; lia | vm_compute; reflexivity].
  - left; reflexivity.
  - right; right; left; reflexivity.
  - left; reflexivity.
  - reflexivity.
  - assert (Ec : schedule_tasks (VList nan_siblings) =
                 Done [VStr "a"; VStr "b"; VStr "c"]) by (vm_compute; reflexivity).
    assert (Ex : subtree_sequence (task "c" [("priority", VInt 2)]) = Done [VStr "c"])
      by (vm_compute; reflexivity).
    assert (Ey : subtree_sequence (task "a" [("priority", VInt 1)]) = Done [VStr "a"])
      by (vm_compute; reflexivity).
    rewrite Ec in Hout. rewrite Ex in Hx. rewrite Ey in Hy.
    inversion Hout as [E0]. inversion Hx. inversion Hy. subst sx sy.
    rewrite E in E0. simpl in E0. clear - E0. peel.
Qed.

(** C4 (as amended): in a valid forest, two siblings of equal priority
    (a missing one counting as 0) of a list where every priority compares
    (none is NaN) have their subtree sequences in the output in the order
    the siblings have in the input. *)
Theorem equal_priority_siblings_keep_order : forall ts g i j x y,
  Forall valid_task ts ->
  In g (sibling_groups ts) -> forallb has_order g = true ->
  nth_error g i = Some x -> nth_error g j = Some y -> i < j ->
  same_priority x y = true ->
  exists out sx sy pre mid post,
    schedule_tasks (VList ts) = Done out /\
    subtree_sequence x = Done sx /\ subtree_sequence y = Done sy /\
    out = pre ++ sx ++ mid ++ sy ++ post.
Proof.
  intros ts g i j x y Hv Hg Ho Hi Hj Hij Hxy.
  destruct (valid_forest_scheduled Hv) as [out Hout].
  destruct (@sibling_group_block ts out g Hout Hg) as [sl [rs [pre [post [Hsl [Hrs ->]]]]]].
  destruct (@sorted_siblings g sl Ho Hsl) as [_ Hstable].
  rewrite forallb_forall in Ho.
  assert (Ox : has_order x = true) by (eapply Ho, nth_error_In; eassumption).
  assert (Oy : has_order y = true) by (eapply Ho, nth_error_In; eassumption).
  rewrite (same_priority_key _ _ Ox Oy) in Hxy.
  destruct (nth_error_split2 _ Hij Hi Hj) as [a [b [c ->]]].
  specialize (Hstable x Ox).
  rewrite !filter_app in Hstable. simpl in Hstable.
  rewrite !filter_app in Hstable. simpl in Hstable.
  rewrite Hxy in Hstable.
  replace (equiv_by key_ltb (key_of x) (key_of x)) with true in Hstable
    by (unfold equiv_by; rewrite key_ltb_irrefl; reflexivity).
  apply filter_split2 in Hstable. destruct Hstable as [s1 [s2 [s3 ->]]].
  destruct (@Forall2_app_inv_l2 _ _ _ _ _ _ _ _ _ Hrs)
    as [r1 [sx [r2 [sy [r3 [-> [Hsx Hsy]]]]]]].
  exists (pre ++ concat (r1 ++ sx :: r2 ++ sy :: r3) ++ post), sx, sy,
    (pre ++ concat r1), (concat r2), (concat r3 ++ post).
  repeat split; try assumption.
  rewrite concat_split2, <- !app_assoc. reflexivity.
Qed.

Lemma equal_priority_siblings_keep_order_witness :
  let x := task "x" [] in
  let y := task "y" [("priority", VInt 0)] in
  Forall valid_task [x; y] /\
  In [x; y] (sibling_groups [x; y]) /\ forallb has_order [x; y] = true /\
  nth_error [x; y] 0 = Some x /\ nth_error [x; y] 1 = Some y /\ 0 < 1 /\
  same_priority x y = true /\
  exists out sx sy pre mid post,
    schedule_tasks (VList [x; y]) = Done out /\
    subtree_sequence x = Done sx /\ subtree_sequence y = Done sy /\
    out = pre ++ sx ++ mid ++ sy ++ post.
Proof.
  intros x y.
  assert (H1 : Forall valid_task [x; y]).
  { apply Forall_forall. intros t [<- | [<- | []]];
      apply (@validate_valid_task 10); solve [simpl; lia | vm_compute; reflexivity]. }
  assert (H2 : In [x; y] (sibling_groups [x; y])) by (left; reflexivity).
  assert (H3 : forallb has_order [x; y] = true) by reflexivity.
  assert (H4 : nth_error [x; y] 0 = Some x) by reflexivity.
  assert (H5 : nth_error [x; y] 1 = Some y) by reflexivity.
  assert (H6 : 0 < 1) by lia.
  assert (H7 : same_priority x y = true) by reflexivity.
  repeat (split; [assumption |]).
  exact (@equal_priority_siblings_keep_order [x; y] [x; y] 0 1 x y
           H1 H2 H3 H4 H5 H6 H7).
Defined.

(** C4 (as stated) fails on seven valid siblings of priorities 2, 1, 2, NaN,
    5, 0, 0: the binary search of the sort is misled by the NaN, and "c"
    (priority 2) comes out before "a" (priority 2), which came first. *)
Lemma nan_breaks_stability :
  schedule_tasks (VList nan_ties) =
  Done [VStr "c"; VStr "d"; VStr "e"; VStr "a"; VStr "b"; VStr "f"; VStr "g"] /\
  ~ (forall ts g i j x y,
       Forall valid_task ts -> In g (sibling_groups ts) ->
       nth_error g i = Some x -> nth_error g j = Some y -> i < j ->
       same_priority x y = true ->
       exists out sx sy pre mid post,
         schedule_tasks (VList ts) = Done out /\
         subtree_sequence x = Done sx /\ subtree_sequence y = Done sy /\
         out = pre ++ sx ++ mid ++ sy ++ post).
Proof.
  split; [vm_compute; reflexivity |]. intros H.
  destruct (H nan_ties nan_ties 0 2
              (task "a" [("priority", VInt 2)]) (task "c" [("priority", VInt 2)]))
    as [out [sx [sy [pre [mid [post [Hout [Hx [Hy E]]]]]]]]].
  - apply Forall_forall. intros t Ht. simpl in Ht.
    repeat (destruct Ht as [<- | Ht];
            [apply (@validate_valid_task 10);
             solve [simpl; lia | vm_compute; reflexivity] |]).
    contradiction.
  - left; reflexivity.
  - reflexivity.
  - reflexivity.
  - lia.
  - reflexivity.
  - assert (Ec : schedule_tasks (VList nan_ties) =
                 Done [VStr "c"; VStr "d"; VStr "e"; VStr "a"; VStr "b"; VStr "f"; VStr "g"])
      by (vm_compute; reflexivity).
    assert (Ex : subtree_sequence (task "a" [("priority", VInt 2)]) = Done [VStr "a"])
      by (vm_compute; reflexivity).
    assert (Ey : subtree_sequence (task "c" [("priority", VInt 2)]) = Done [VStr "c"])
      by (vm_compute; reflexivity).
    rewrite Ec in Hout. rewrite Ex in Hx. rewrite Ey in Hy.
    inversion Hout as [E0]. inversion Hx. inversion Hy. subst sx sy.
    rewrite E in E0. simpl in E0. clear - E0. peel.
Qed.

(** C5: in a valid forest the name of every task comes in the output right
    after a block that holds the names of all the tasks below it, each
    once: children come before their parent. *)
Theorem children_before_parent : forall ts n,
  Forall valid_task ts -> In n (forest_nodes ts) ->
  exists out pre body post,
    schedule_tasks (VList ts) = Done out /\
    out = pre ++ body ++ name_of n :: post /\
    Permutation body (map name_of (flat_map nodes (subtasks_of n))).
Proof.
  intros ts n Hv Hn.
  destruct (valid_forest_scheduled Hv) as [out Hout].
  destruct (@schedule_tasks_block ts out n Hout Hn) as [sn [pre [post [Hsn ->]]]].
  pose proof (@subtree_sequence_names (S (vdepth n)) n sn (Nat.lt_succ_diag_r _) Hsn) as Hp.
  destruct (subtree_sequence_inv _ Hsn) as [_ [sl [rs [_ [_ ->]]]]].
  exists (pre ++ (concat rs ++ [name_of n]) ++ post), pre, (concat rs), post.
  split; [assumption |]. split; [rewrite <- !app_assoc; reflexivity |].
  rewrite nodes_unfold in Hp. simpl in Hp.
  rewrite <- Permutation_cons_append in Hp.
  apply Permutation_cons_inv in Hp. assumption.
Qed.

Lemma children_before_parent_witness :
  Forall valid_task basic_forest /\ In task_A (forest_nodes basic_forest) /\
  exists out pre body post,
    schedule_tasks (VList basic_forest) = Done out /\
    out = pre ++ body ++ name_of task_A :: post /\
    Permutation body (map name_of (flat_map nodes (subtasks_of task_A))).
Proof.
  assert (H1 : Forall valid_task basic_forest) by exact basic_forest_valid.
  assert (H2 : In task_A (forest_nodes basic_forest)) by (left; reflexivity).
  repeat (split; [assumption |]).
  exact (@children_before_parent basic_forest task_A H1 H2).
Defined.

(** C6: for a valid forest the operation returns a sequence as long as the
    forest has tasks, holding the name of each task once for each
    occurrence of the task. *)
Theorem every_task_scheduled_once : forall ts,
  Forall valid_task ts ->
  exists out,
    schedule_tasks (VList ts) = Done out /\
    length out = length (forest_nodes ts) /\
    Permutation out (map name_of (forest_nodes ts)).
Proof.
  intros ts Hv.
  destruct (valid_forest_scheduled Hv) as [out Hout].
  exists out. split; [assumption |].
  assert (Hp : Permutation out (map name_of (forest_nodes ts))).
  { destruct (schedule_tasks_inv _ Hout) as [_ [sl [rs [Hsl [Hrs ->]]]]].
    unfold forest_nodes. rewrite map_flat_map_comm.
    rewrite <- (Permutation_flat_map _ (sorted_reverse_perm _ _ Hsl)).
    apply Forall2_concat_perm.
    clear Hsl Hout. induction Hrs as [| c r sl rs Hr _ IH]; constructor; [| assumption].
    apply (@subtree_sequence_names (S (vdepth c))); [lia | assumption]. }
  split; [| assumption].
  rewrite (Permutation_length Hp). apply length_map.
Qed.

Lemma every_task_scheduled_once_witness :
  Forall valid_task basic_forest /\
  exists out,
    schedule_tasks (VList basic_forest) = Done out /\
    length out = length (forest_nodes basic_forest) /\
    Permutation out (map name_of (forest_nodes basic_forest)).
Proof.
  assert (H1 : Forall valid_task basic_forest) by exact basic_forest_valid.
  split; [assumption |].
  exact (@every_task_scheduled_once basic_forest H1).
Defined.

(** ** Inputs the scheduler cannot tell apart *)

Lemma outcome_rel_eq : forall (A : Type) (m m' : outcome A),
  outcome_rel eq m m' -> m = m'.
Proof. intros A m m' []; congruence. Qed.

Lemma outcome_rel_refl : forall (A : Type) (R : A -> A -> Prop) (m : outcome A),
  (forall a, R a a) -> outcome_rel R m m.
Proof. intros A R [a | e |] H; constructor; auto. Qed.

Lemma bind_rel : forall (A A' B B' : Type) (R : A -> A' -> Prop) (S : B -> B' -> Prop)
                        m m' (k : A -> outcome B) (k' : A' -> outcome B'),
  outcome_rel R m m' ->
  (forall a a', R a a' -> outcome_rel S (k a) (k' a')) ->
  outcome_rel S (bind m k) (bind m' k').
Proof.
  intros A A' B B' R S m m' k k' [a a' Ha | e |] Hk; simpl; [auto | constructor ..].
Qed.

Lemma for_each_rel : forall (A A' : Type) (R : A -> A' -> Prop)
                            (f : A -> outcome unit) (g : A' -> outcome unit) l l',
  Forall2 R l l' -> (forall x x', R x x' -> f x = g x') ->
  for_each f l = for_each g l'.
Proof.
  induction 1 as [| x x' l l' Hx _ IH]; intros H; simpl; [reflexivity |].
  rewrite (H _ _ Hx), IH; auto.
Qed.

Lemma extend_each_rel : forall (A A' B : Type) (R : A -> A' -> Prop)
                               (f : A -> outcome (list B)) (g : A' -> outcome (list B))
                               l l' acc,
  Forall2 R l l' -> (forall x x', R x x' -> f x = g x') ->
  extend_each f acc l = extend_each g acc l'.
Proof.
  intros A A' B R f g l l' acc H. revert acc.
  induction H as [| x x' l l' Hx _ IH]; intros acc Hfg; simpl; [reflexivity |].
  rewrite (Hfg _ _ Hx). destruct (g x'); simpl; auto.
Qed.

Lemma map_each_rel : forall (A A' B B' : Type) (R : A -> A' -> Prop) (S : B -> B' -> Prop)
                            (f : A -> outcome B) (g : A' -> outcome B') l l',
  Forall2 R l l' -> (forall x x', R x x' -> outcome_rel S (f x) (g x')) ->
  outcome_rel (Forall2 S) (map_each f l) (map_each g l').
Proof.
  induction 1 as [| x x' l l' Hx _ IH]; intros H; simpl; [repeat constructor |].
  eapply bind_rel; [apply H; assumption |]. intros y y' Hy.
  eapply bind_rel; [apply IH; assumption |]. intros ys ys' Hys.
  constructor. constructor; assumption.
Qed.

Lemma Forall2_firstn : forall (A B : Type) (R : A -> B -> Prop) k l l',
  Forall2 R l l' -> Forall2 R (firstn k l) (firstn k l').
Proof.
  induction k as [| k IH]; intros l l' H; simpl; [constructor |].
  destruct H; constructor; auto.
Qed.

Lemma Forall2_skipn : forall (A B : Type) (R : A -> B -> Prop) k l l',
  Forall2 R l l' -> Forall2 R (skipn k l) (skipn k l').
Proof.
  induction k as [| k IH]; intros l l' H; simpl; [assumption |].
  destruct H; [constructor | auto].
Qed.

Lemma Forall2_rev : forall (A B : Type) (R : A -> B -> Prop) l l',
  Forall2 R l l' -> Forall2 R (rev l) (rev l').
Proof.
  induction 1; simpl; [constructor |].
  apply Forall2_app; [assumption | repeat constructor; assumption].
Qed.

Lemma Forall2_nth_error : forall (A B : Type) (R : A -> B -> Prop) l l' k,
  Forall2 R l l' ->
  match nth_error l k, nth_error l' k with
  | Some x, Some y => R x y
  | None, None => True
  | _, _ => False
  end.
Proof.
  intros A B R l l' k H. revert k.
  induction H as [| x y l l' Hxy _ IH]; intros [| k]; simpl; auto. apply IH.
Qed.

Lemma Forall2_map_l : forall (A B C : Type) (R : C -> B -> Prop) (f : A -> C) l l',
  Forall2 (fun x y => R (f x) y) l l' -> Forall2 R (map f l) l'.
Proof. induction 1; simpl; constructor; assumption. Qed.

Lemma Forall2_map_r : forall (A B C : Type) (R : A -> C -> Prop) (f : B -> C) l l',
  Forall2 (fun x y => R x (f y)) l l' -> Forall2 R l (map f l').
Proof. induction 1; simpl; constructor; assumption. Qed.

(** Two lists of items that compare alike are sorted alike. *)
Section SortRel.
Variables X Y : Type.
Variable R : X -> Y -> Prop.
Variable lt : X -> X -> outcome bool.
Variable lt' : Y -> Y -> outcome bool.
Hypothesis lt_rel : forall x y x' y', R x x' -> R y y' -> lt x y = lt' x' y'.

Lemma run_while_rel : forall want l l' prev prev',
Forall2 R l l' -> R prev prev' ->
outcome_rel (fun p q => Forall2 R (fst p) (fst q) /\ Forall2 R (snd p) (snd q))
            (run_while lt want prev l) (run_while lt' want prev' l').
Proof.
intros want l l' prev prev' H. revert prev prev'.
induction H as [| x x' l l' Hx Hl IH]; intros prev prev' Hp; simpl.
- constructor; split; constructor.
- rewrite (lt_rel Hx Hp). destruct (lt' x' prev') as [c | e |]; simpl;
    [| constructor ..].
  destruct (Bool.eqb c want).
  + eapply bind_rel; [apply IH; assumption |].
    intros p q [H1 H2]. constructor; simpl. split; [constructor |]; assumption.
  + constructor; simpl. split; constructor; assumption.
Qed.

Lemma count_run_rel : forall l l',
Forall2 R l l' ->
outcome_rel (fun p q => Forall2 R (fst p) (fst q) /\ Forall2 R (snd p) (snd q))
            (count_run lt l) (count_run lt' l').
Proof.
intros l l' H. destruct H as [| x0 y0 l l' H0 H]; simpl.
- constructor; split; constructor.
- destruct H as [| x1 y1 l l' H1 H]; simpl.
  + constructor; split; repeat constructor; assumption.
  + rewrite (lt_rel H1 H0). destruct (lt' y1 y0) as [c | e |]; simpl;
      [| constructor ..].
    eapply bind_rel; [apply run_while_rel; assumption |].
    intros p q [Hp Hq]. constructor; cbn [fst snd]. split; [| assumption].
    assert (Hrun : Forall2 R (x0 :: x1 :: fst p) (y0 :: y1 :: fst q))
      by (repeat constructor; assumption).
    destruct c; [exact (Forall2_rev Hrun) | exact Hrun].
Qed.

Lemma bisect_rel : forall fuel p p' a a' l r,
Forall2 R a a' -> R p p' ->
bisect lt fuel p a l r = bisect lt' fuel p' a' l r.
Proof.
induction fuel as [| fuel IH]; intros p p' a a' l r Ha Hp; simpl; [reflexivity |].
destruct (r <=? l); [reflexivity |].
pose proof (Forall2_nth_error (l + Nat.div2 (r - l)) Ha) as Hn.
destruct (nth_error a _) as [y |], (nth_error a' _) as [y' |];
  try contradiction; [| reflexivity].
rewrite (lt_rel Hp Hn). destruct (lt' p' y') as [[] | |]; simpl; auto.
Qed.

Lemma insert_at_rel : forall k p p' a a',
Forall2 R a a' -> R p p' -> Forall2 R (insert_at k p a) (insert_at k p' a').
Proof.
intros k p p' a a' Ha Hp. unfold insert_at.
apply Forall2_app; [apply Forall2_firstn; assumption |].
constructor; [assumption | apply Forall2_skipn; assumption].
Qed.

Lemma binarysort_rel : forall rest rest' a a',
Forall2 R rest rest' -> Forall2 R a a' ->
outcome_rel (Forall2 R) (binarysort lt a rest) (binarysort lt' a' rest').
Proof.
intros rest rest' a a' H. revert a a'.
induction H as [| p p' rest rest' Hp _ IH]; intros a a' Ha; simpl.
- constructor; assumption.
- rewrite (bisect_rel (length a) 0 (length a) Ha Hp).
  rewrite (Forall2_length Ha).
  destruct (bisect lt' (length a') p' a' 0 (length a')) as [k | e |]; simpl;
    [| constructor ..].
  apply IH. apply insert_at_rel; assumption.
Qed.

Lemma list_sort_rel : forall l l',
Forall2 R l l' -> outcome_rel (Forall2 R) (list_sort lt l) (list_sort lt' l').
Proof.
intros l l' H. unfold list_sort.
eapply bind_rel; [apply count_run_rel; assumption |].
intros p q [H1 H2]. apply binarysort_rel; assumption.
Qed.
End SortRel.

Lemma py_lt_alike : forall a a' b b',
  alike_key a a' -> alike_key b b' -> py_lt a b = py_lt a' b'.
Proof.
  intros a a' b b' Ha Hb.
  assert (Hl : forall c k, py_lt (VBool c) k = py_lt (VInt (Z.b2z c)) k)
    by (intros c k; destruct k; reflexivity).
  assert (Hr : forall c k, py_lt k (VBool c) = py_lt k (VInt (Z.b2z c)))
    by (intros c k; destruct k; reflexivity).
  destruct Ha, Hb; rewrite ?Hl, ?Hr; reflexivity.
Qed.

Lemma alike_priority_check : forall o o',
  alike_priority o o' ->
  match o with
  | Some p => if is_number p then Done tt else Raise (ValueError msg_priority)
  | None => Done tt
  end =
  match o' with
  | Some p => if is_number p then Done tt else Raise (ValueError msg_priority)
  | None => Done tt
  end.
Proof. intros o o' []; reflexivity. Qed.

Lemma alike_priority_key : forall o o',
  alike_priority o o' ->
  alike_key (match o with Some p => p | None => VInt 0 end)
            (match o' with Some p => p | None => VInt 0 end).
Proof. intros o o' []; constructor. Qed.

Lemma priority_key_alike : forall t t',
  alike t t' -> outcome_rel alike_key (priority_key t) (priority_key t').
Proof.
  intros t t' H.
  destruct H; simpl;
    try (constructor; apply alike_priority_key; assumption).
  apply outcome_rel_refl. constructor.
Qed.

Lemma is_dict_alike : forall t t', alike t t' -> is_dict t = is_dict t'.
Proof. intros t t' []; reflexivity. Qed.

Lemma sorted_reverse_alike : forall l l',
  Forall2 alike l l' ->
  outcome_rel (Forall2 alike) (sorted_reverse priority_key l)
              (sorted_reverse priority_key l').
Proof.
  intros l l' H. unfold sorted_reverse.
  set (KR := fun p q : value * value => alike_key (fst p) (fst q) /\ alike (snd p) (snd q)).
  eapply bind_rel with (R := Forall2 KR).
  - eapply map_each_rel; [exact H |]. intros x x' Hx.
    eapply bind_rel; [apply priority_key_alike; exact Hx |].
    intros k k' Hk. constructor. split; assumption.
  - intros keyed keyed' Hk.
    eapply bind_rel with (R := Forall2 KR).
    + apply list_sort_rel; [| apply Forall2_rev; assumption].
      intros x y x' y' [Hx _] [Hy _]. apply py_lt_alike; assumption.
    + intros s s' Hs. constructor.
      apply Forall2_map_l, Forall2_map_r.
      apply Forall2_rev in Hs.
      eapply Forall2_impl; [| exact Hs]. intros p q [_ Hpq]; exact Hpq.
Qed.

Lemma validate_task_alike : forall n t t',
  alike t t' -> validate_task n t = validate_task n t'.
Proof.
  induction n as [| n IH]; intros t t' H; [reflexivity |].
  destruct H as [v | d d' Hn Hp Hs | d d' l l' Hn Hp Hs Hs' Hl
                 | d d' Hn Hp Hs Hs' | d d' Hn Hp Hs Hs']; [reflexivity | ..];
    cbn [validate_task]; rewrite <- Hn; destruct (get "name" d) as [[] |];
    try reflexivity; rewrite (alike_priority_check Hp).
  - rewrite Hs; reflexivity.
  - rewrite Hs, Hs'. rewrite (for_each_rel (validate_task n) (validate_task n) Hl IH).
    reflexivity.
  - rewrite Hs, Hs'; reflexivity.
  - rewrite Hs, Hs'; reflexivity.
Qed.

Lemma traverse_alike : forall n t t',
  alike t t' -> traverse_and_schedule n t = traverse_and_schedule n t'.
Proof.
  induction n as [| n IH]; intros t t' H; [reflexivity |].
  cbn [traverse_and_schedule]. rewrite (validate_task_alike (S n) H).
  destruct H as [v | d d' Hn Hp Hs | d d' l l' Hn Hp Hs Hs' Hl
                 | d d' Hn Hp Hs Hs' | d d' Hn Hp Hs Hs']; [reflexivity | ..];
    rewrite <- Hn.
  - rewrite Hs; reflexivity.
  - rewrite Hs, Hs'.
    assert (E : (subtasks <- sorted_reverse priority_key l ;;
                 extend_each (traverse_and_schedule n) [] subtasks) =
                (subtasks <- sorted_reverse priority_key l' ;;
                 extend_each (traverse_and_schedule n) [] subtasks)).
    { apply outcome_rel_eq.
      eapply bind_rel; [apply sorted_reverse_alike; exact Hl |].
      intros s s' Hss.
      rewrite (extend_each_rel (traverse_and_schedule n) (traverse_and_schedule n)
                 [] Hss IH).
      apply outcome_rel_refl; reflexivity. }
    rewrite E; reflexivity.
  - rewrite Hs, Hs'; reflexivity.
  - rewrite Hs, Hs'; reflexivity.
Qed.

Lemma subtree_sequence_alike : forall t t',
  alike t t' -> subtree_sequence t = subtree_sequence t'.
Proof.
  intros t t' H. unfold subtree_sequence.
  rewrite (@traverse_fuel (S (vdepth t)) (S (Nat.max (vdepth t) (vdepth t'))) t) by lia.
  rewrite (@traverse_fuel (S (vdepth t')) (S (Nat.max (vdepth t) (vdepth t'))) t') by lia.
  apply traverse_alike; assumption.
Qed.

(** Two hierarchies of tasks alike one by one have the same outcome. *)
Lemma schedule_tasks_alike : forall ts ts',
  Forall2 alike ts ts' -> schedule_tasks (VList ts) = schedule_tasks (VList ts').
Proof.
  intros ts ts' H. rewrite !schedule_tasks_list.
  replace (forallb is_dict ts') with (forallb is_dict ts).
  2:{ induction H as [| t t' ts ts' Ht _ IH]; simpl; [reflexivity |].
      rewrite (is_dict_alike Ht), IH; reflexivity. }
  destruct (forallb is_dict ts); [| reflexivity].
  apply outcome_rel_eq.
  eapply bind_rel; [apply sorted_reverse_alike; exact H |].
  intros s s' Hss.
  rewrite (extend_each_rel subtree_sequence subtree_sequence [] Hss
             subtree_sequence_alike).
  apply outcome_rel_refl; reflexivity.
Qed.

Lemma Forall2_impl_in : forall (A B : Type) (R S : A -> B -> Prop) l l',
  Forall2 R l l' -> (forall x y, In x l -> R x y -> S x y) -> Forall2 S l l'.
Proof.
  induction 1 as [| x y l l' Hxy _ IH]; intros H; constructor.
  - apply H; [left; reflexivity | assumption].
  - apply IH. intros a b Ha; apply H; right; assumption.
Qed.

Lemma same_known_fields_alike : forall n t t',
  vdepth t < n -> same_known_fields t t' -> alike t t'.
Proof.
  induction n as [| n IH]; intros t t' Hn H; [lia |].
  destruct H as [v | d d' Hname Hp Hs | d d' l l' Hname Hp Hs Hs' Hl].
  - constructor.
  - apply alike_field; [assumption | rewrite Hp; constructor | assumption].
  - eapply alike_list; try eassumption; [rewrite Hp; constructor |].
    eapply Forall2_impl_in; [exact Hl |]. intros x y Hx Hxy.
    pose proof (@vdepth_subtasks _ _ _ Hs Hx). apply IH; [lia | assumption].
Qed.

Lemma empty_or_absent_alike : forall n t t',
  vdepth t < n -> empty_or_absent t t' -> alike t t'.
Proof.
  induction n as [| n IH]; intros t t' Hn H; [lia |].
  destruct H as [v | d d' Hs Hs' Hk | d d' l l' Hs Hs' Hk Hl].
  - constructor.
  - apply alike_empty_l; try assumption.
    + apply Hk; discriminate.
    + rewrite (Hk "priority") by discriminate. constructor.
  - eapply alike_list; try eassumption.
    + apply Hk; discriminate.
    + rewrite (Hk "priority") by discriminate. constructor.
    + eapply Forall2_impl_in; [exact Hl |]. intros x y Hx Hxy.
      pose proof (@vdepth_subtasks _ _ _ Hs Hx). apply IH; [lia | assumption].
Qed.

Lemma bool_as_int_alike : forall n t t',
  vdepth t < n -> bool_as_int t t' -> alike t t'.
Proof.
  induction n as [| n IH]; intros t t' Hn H; [lia |].
  destruct H as [v | d d' b Hp Hp' Hk | d d' l l' Hs Hs' Hname Hp Hl].
  - constructor.
  - apply alike_field.
    + apply Hk; discriminate.
    + rewrite Hp, Hp'. constructor.
    + apply Hk; discriminate.
  - eapply alike_list; try eassumption.
    + destruct Hp as [Hp | [b [Hp Hp']]];
        [rewrite Hp | rewrite Hp, Hp']; constructor.
    + eapply Forall2_impl_in; [exact Hl |]. intros x y Hx Hxy.
      pose proof (@vdepth_subtasks _ _ _ Hs Hx). apply IH; [lia | assumption].
Qed.

Lemma Forall2_alike : forall (R : value -> value -> Prop) ts ts',
  (forall n t t', vdepth t < n -> R t t' -> alike t t') ->
  Forall2 R ts ts' -> Forall2 alike ts ts'.
Proof.
  intros R ts ts' HR H. eapply Forall2_impl; [| exact H].
  intros t t'. apply (HR (S (vdepth t))). lia.
Qed.

(** C8: two hierarchies whose tasks differ only in fields other than name,
    priority and subtasks have the same outcome: the same sequence, or the
    same exception. *)
Theorem unknown_fields_ignored : forall ts ts',
  Forall2 same_known_fields ts ts' ->
  schedule_tasks (VList ts) = schedule_tasks (VList ts').
Proof.
  intros ts ts' H. apply schedule_tasks_alike.
  exact (Forall2_alike same_known_fields_alike H).
Qed.

Lemma unknown_fields_ignored_witness :
  let with_id := [VDict [("id", VInt 1); ("name", VStr "X"); ("priority", VInt 5)]] in
  let without := [VDict [("name", VStr "X"); ("priority", VInt 5)]] in
  Forall2 same_known_fields with_id without /\
  schedule_tasks (VList with_id) = schedule_tasks (VList without).
Proof.
  intros with_id without.
  assert (H : Forall2 same_known_fields with_id without)
    by (constructor; [apply skf_field; reflexivity | constructor]).
  split; [assumption |].
  exact (@unknown_fields_ignored with_id without H).
Defined.

(** C9: a task with an empty list of subtasks and the same task without
    the field give the hierarchy the same outcome, in both directions (the
    conclusion is an equation). *)
Theorem empty_subtasks_as_absent : forall ts ts',
  Forall2 empty_or_absent ts ts' ->
  schedule_tasks (VList ts) = schedule_tasks (VList ts').
Proof.
  intros ts ts' H. apply schedule_tasks_alike.
  exact (Forall2_alike empty_or_absent_alike H).
Qed.

Lemma empty_subtasks_as_absent_witness :
  let empty := [VDict [("name", VStr "P"); ("subtasks", VList [])]] in
  let absent := [VDict [("name", VStr "P")]] in
  Forall2 empty_or_absent empty absent /\
  schedule_tasks (VList empty) = schedule_tasks (VList absent).
Proof.
  intros empty absent.
  assert (H : Forall2 empty_or_absent empty absent).
  { constructor; [| constructor]. apply eoa_drop; try reflexivity.
    intros k Hk. cbn [get]. destruct (String.eqb "name" k); [reflexivity |].
    destruct (String.eqb_spec "subtasks" k); [congruence | reflexivity]. }
  split; [assumption |].
  exact (@empty_subtasks_as_absent empty absent H).
Defined.

Lemma for_each_raise_exists : forall (A : Type) (f : A -> outcome unit) e l,
  for_each f l = Raise e -> Exists (fun c => f c = Raise e) l.
Proof.
  induction l as [| c l IH]; simpl; intros H; [discriminate |].
  destruct (f c) as [[] | e' |] eqn:E; simpl in H; try discriminate.
  - right; auto.
  - left. congruence.
Qed.

(** C10: a boolean priority is no invalid priority (a priority error for
    the task can only come from a task below it), and a hierarchy has the
    same outcome as the one where the boolean priorities are written 1 for
    True and 0 for False. *)
Theorem boolean_priority_as_integer : forall ts ts' d b,
  Forall2 bool_as_int ts ts' -> get "priority" d = Some (VBool b) ->
  schedule_tasks (VList ts) = schedule_tasks (VList ts') /\
  (validate (VDict d) = Raise (ValueError msg_priority) ->
   Exists (fun c => validate c = Raise (ValueError msg_priority))
          (subtasks_of (VDict d))).
Proof.
  intros ts ts' d b H Hp. split.
  - apply schedule_tasks_alike. exact (Forall2_alike bool_as_int_alike H).
  - rewrite validate_dict, Hp. simpl.
    destruct (get "name" d) as [[] |]; try discriminate. simpl.
    destruct (get "subtasks" d) as [[] |]; try discriminate.
    apply for_each_raise_exists.
Qed.

Lemma boolean_priority_as_integer_witness :
  let d := [("name", VStr "t"); ("priority", VBool true)] in
  let bools := [VDict d; VDict [("name", VStr "f"); ("priority", VBool false)];
                VDict [("name", VStr "h"); ("priority", VFloat (S754_finite false 1 (-1)))]] in
  let ints := [VDict [("name", VStr "t"); ("priority", VInt 1)];
               VDict [("name", VStr "f"); ("priority", VInt 0)];
               VDict [("name", VStr "h"); ("priority", VFloat (S754_finite false 1 (-1)))]] in
  Forall2 bool_as_int bools ints /\ get "priority" d = Some (VBool true) /\
  schedule_tasks (VList bools) = schedule_tasks (VList ints) /\
  (validate (VDict d) = Raise (ValueError msg_priority) ->
   Exists (fun c => validate c = Raise (ValueError msg_priority))
          (subtasks_of (VDict d))).
Proof.
  intros d bools ints.
  assert (Hk : forall (p q : value) n k, k <> "priority" ->
            get k [("name", n); ("priority", p)] = get k [("name", n); ("priority", q)]).
  { intros p q n k Hk. cbn [get]. destruct (String.eqb "name" k); [reflexivity |].
    destruct (String.eqb_spec "priority" k); [congruence | reflexivity]. }
  assert (H1 : Forall2 bool_as_int bools ints).
  { constructor; [apply bai_here with (b := true); [reflexivity | reflexivity | apply Hk] |].
    constructor; [apply bai_here with (b := false); [reflexivity | reflexivity | apply Hk] |].
    constructor; [apply bai_same | constructor]. }
  assert (H2 : get "priority" d = Some (VBool true)) by reflexivity.
  repeat (split; [assumption |]).
  exact (@boolean_priority_as_integer bools ints d true H1 H2).
Defined.

(** ** Invalid priorities *)

Lemma existsb_flat_map : forall (A B : Type) (p : B -> bool) (g : A -> list B) l,
  existsb p (flat_map g l) = existsb (fun c => existsb p (g c)) l.
Proof.
  induction l as [| a l IH]; simpl; [reflexivity |].
  rewrite existsb_app, IH; reflexivity.
Qed.

Lemma for_each_first_raise : forall (A : Type) (f : A -> outcome unit) (P : A -> bool) e l,
  (forall c, In c l -> f c = if P c then Raise e else Done tt) ->
  for_each f l = if existsb P l then Raise e else Done tt.
Proof.
  induction l as [| c l IH]; simpl; intros H; [reflexivity |].
  rewrite (H c (or_introl eq_refl)). destruct (P c); simpl; [reflexivity |].
  apply IH. intros c' Hc'; apply H; right; assumption.
Qed.

Lemma shaped_task_subtasks : forall t c,
  shaped_task t -> In c (subtasks_of t) -> shaped_task c.
Proof.
  intros t c H Hc. destruct H as [d s Hn Hs | d s l Hn Hs Hl]; simpl in Hc;
    rewrite Hs in Hc; [contradiction |].
  rewrite Forall_forall in Hl; auto.
Qed.

(** On a task whose names and subtasks are well formed, validation fails
    exactly when a priority in the subtree is no number, and then with the
    priority error. *)
Lemma validate_shaped : forall n t,
  vdepth t < n -> shaped_task t ->
  validate t = if existsb bad_priority (nodes t)
               then Raise (ValueError msg_priority) else Done tt.
Proof.
  induction n as [| n IH]; intros t Hn H; [lia |].
  rewrite nodes_unfold. cbn [existsb]. rewrite existsb_flat_map.
  assert (Hsub : for_each validate (subtasks_of t) =
                 if existsb (fun c => existsb bad_priority (nodes c)) (subtasks_of t)
                 then Raise (ValueError msg_priority) else Done tt).
  { apply for_each_first_raise. intros c Hc.
    pose proof (subtasks_of_depth _ _ Hc).
    apply IH; [lia | eapply shaped_task_subtasks; eassumption]. }
  destruct H as [d s Hname Hs | d s l Hname Hs Hl];
    rewrite validate_dict, Hname, Hs; simpl in *; rewrite Hs in *;
    destruct (get "priority" d) as [p |]; try (destruct (is_number p));
    simpl; try reflexivity; assumption.
Qed.

Lemma shaped_task_dict : forall t, shaped_task t -> is_dict t = true.
Proof. intros t []; reflexivity. Qed.

(** When the names and the subtasks fields of a hierarchy are well formed
    throughout and the sort of its top level returns, a priority that is
    present and no number, anywhere in the hierarchy, makes the operation
    fail with the priority error. *)
Lemma bad_priority_rejected : forall ts sorted_tasks,
  Forall shaped_task ts ->
  existsb bad_priority (forest_nodes ts) = true ->
  sorted_reverse priority_key ts = Done sorted_tasks ->
  schedule_tasks (VList ts) = Raise (ValueError msg_priority).
Proof.
  intros ts sl Hsh Hbad Hsl. rewrite Forall_forall in Hsh.
  rewrite schedule_tasks_list, Hsl.
  replace (forallb is_dict ts) with true
    by (symmetry; apply forallb_forall; intros t Ht; apply shaped_task_dict; auto).
  cbn [bind]. pose proof (sorted_reverse_perm _ _ Hsl) as Hp.
  apply extend_each_raise.
  - rewrite Forall_forall. intros t Ht.
    apply (Permutation_in _ Hp) in Ht.
    pose proof (@validate_shaped (S (vdepth t)) t (Nat.lt_succ_diag_r _) (Hsh t Ht)) as Hv.
    destruct (existsb bad_priority (nodes t)).
    + right. apply subtree_sequence_raise; assumption.
    + left. apply (@subtree_sequence_valid (S (vdepth t))); [lia | assumption].
  - unfold forest_nodes in Hbad. rewrite existsb_flat_map in Hbad.
    apply existsb_exists in Hbad. destruct Hbad as [t [Ht Hb]].
    apply Exists_exists. exists t. split.
    + eapply Permutation_in; [apply Permutation_sym; exact Hp | exact Ht].
    + apply subtree_sequence_raise.
      rewrite (@validate_shaped (S (vdepth t)) t (Nat.lt_succ_diag_r _) (Hsh t Ht)), Hb.
      reflexivity.
Qed.

(** The name is checked before the priority: a single task with a string
    for priority and no name fails with the name error. *)
Lemma nameless_bad_priority_name_error :
  existsb bad_priority (forest_nodes nameless_bad_priority) = true /\
  schedule_tasks (VList nameless_bad_priority) = Raise (ValueError msg_name) /\
  ~ (forall ts, existsb bad_priority (forest_nodes ts) = true ->
                schedule_tasks (VList ts) = Raise (ValueError msg_priority)).
Proof.
  split; [reflexivity |]. split; [vm_compute; reflexivity |].
  intros H. specialize (H nameless_bad_priority eq_refl).
  vm_compute in H. discriminate H.
Qed.

(** C2 fails on the code: in a hierarchy of two top-level tasks whose only
    violation is the string priority of the first (names and subtasks are
    well formed, and the first violation validation would report is the
    priority one), the operation does not fail with the priority error:
    the top level is sorted before any task is validated, and the
    comparison of the string with the number raises a TypeError. *)
Theorem lone_bad_priority_raises_type_error :
  Forall shaped_task string_priority_first /\
  existsb bad_priority (forest_nodes string_priority_first) = true /\
  first_violation (forest_nodes string_priority_first) = Some msg_priority /\
  schedule_tasks (VList string_priority_first) = Raise TypeError /\
  schedule_tasks (VList string_priority_first) <> Raise (ValueError msg_priority).
Proof.
  split.
  { constructor; [eapply shaped_leaf; reflexivity |].
    constructor; [eapply shaped_leaf; reflexivity | constructor]. }
  split; [reflexivity |]. split; [reflexivity |].
  split; [vm_compute; reflexivity | vm_compute; discriminate].
Qed.

(** C7 fails on the code: the top level is sorted before any task is
    validated, so with a string for the priority of the first of two
    top-level tasks (a task validation rejects) the comparison of the
    sort raises a TypeError, which is no validation error. *)
Theorem unvalidated_sort_raises_type_error :
  Exists (fun t => validate t = Raise (ValueError msg_priority)) string_priority_first /\
  schedule_tasks (VList string_priority_first) = Raise TypeError.
Proof.
  split; [left |]; vm_compute; reflexivity.
Qed.

(** ** What validation reports *)

(** X1: the validator accepts exactly the valid tasks. *)
Theorem validator_accepts_valid_tasks : forall t,
  validate t = Done tt <-> valid_task t.
Proof.
  intros t. split.
  - apply (@validate_valid_task (S (vdepth t))). lia.
  - apply (@valid_task_validate (S (vdepth t))). lia.
Qed.

Lemma first_violation_app : forall a b,
  first_violation (a ++ b) =
  match first_violation a with
  | Some m => Some m
  | None => first_violation b
  end.
Proof.
  induction a as [| t a IH]; intros b; simpl; [reflexivity |].
  destruct (own_violation t); auto.
Qed.

Lemma for_each_first_violation : forall (g : value -> list value) l,
  (forall c, In c l ->
     validate c = match first_violation (g c) with
                  | Some m => Raise (ValueError m)
                  | None => Done tt
                  end) ->
  for_each validate l = match first_violation (flat_map g l) with
                        | Some m => Raise (ValueError m)
                        | None => Done tt
                        end.
Proof.
  induction l as [| c l IH]; simpl; intros H; [reflexivity |].
  rewrite first_violation_app, (H c (or_introl eq_refl)).
  destruct (first_violation (g c)); simpl; [reflexivity |].
  apply IH. intros c' Hc'. apply H; right; assumption.
Qed.

Lemma validate_own_violation : forall t,
  validate t = match own_violation t with
               | Some m => Raise (ValueError m)
               | None => for_each validate (subtasks_of t)
               end.
Proof.
  intros [| | | | | | d]; try reflexivity.
  rewrite validate_dict. unfold own_violation, bad_priority, subtasks_of.
  destruct (get "name" d) as [[] |]; try reflexivity.
  destruct (get "priority" d) as [p |]; [destruct (is_number p) |]; simpl;
    try reflexivity;
    destruct (get "subtasks" d) as [[] |]; reflexivity.
Qed.

Lemma validate_nodes_depth : forall n t,
  vdepth t < n ->
  validate t = match first_violation (nodes t) with
               | Some m => Raise (ValueError m)
               | None => Done tt
               end.
Proof.
  induction n as [| n IH]; intros t Hn; [lia |].
  rewrite validate_own_violation, nodes_unfold. cbn [first_violation].
  destruct (own_violation t); [reflexivity |].
  apply for_each_first_violation. intros c Hc.
  pose proof (subtasks_of_depth _ _ Hc). apply IH; lia.
Qed.

(** X2: validation reports the first violation met when the tasks of the
    subtree are taken parent first, subtasks in the order of the input;
    it accepts the task when there is none. *)
Theorem validate_first_violation : forall t,
  validate t = match first_violation (nodes t) with
               | Some m => Raise (ValueError m)
               | None => Done tt
               end.
Proof. intros t. apply (@validate_nodes_depth (S (vdepth t))). lia. Qed.

Lemma own_violation_message : forall t m,
  own_violation t = Some m -> In m task_messages.
Proof.
  intros t m H. unfold task_messages.
  destruct t as [| | | | | | d]; simpl in H; try (inversion H; simpl; tauto).
  destruct (get "name" d) as [[] |]; try (inversion H; simpl; tauto).
  destruct (match get "priority" d with Some p => negb (is_number p) | None => false end);
    [inversion H; simpl; tauto |].
  destruct (get "subtasks" d) as [[] |]; inversion H; simpl; tauto.
Qed.

Lemma first_violation_message : forall l m,
  first_violation l = Some m -> In m task_messages.
Proof.
  induction l as [| t l IH]; simpl; intros m H; [discriminate |].
  destruct (own_violation t) eqn:E; [| apply IH; assumption].
  inversion H; subst. eapply own_violation_message; eassumption.
Qed.

(** X3: the traversal of a task returns a sequence when validation accepts the
    task and raises the validation error otherwise: the branches behind
    the validation are never reached, and the sorts of subtasks never
    raise. *)
Theorem traverse_follows_validation : forall t,
  (validate t = Done tt /\ exists s, subtree_sequence t = Done s) \/
  (exists m, In m task_messages /\ validate t = Raise (ValueError m) /\
             subtree_sequence t = Raise (ValueError m)).
Proof.
  intros t.
  pose proof (@validate_nodes_depth (S (vdepth t)) t (Nat.lt_succ_diag_r _)) as H.
  destruct (first_violation (nodes t)) as [m |] eqn:E.
  - right. exists m. split; [eapply first_violation_message; eassumption |].
    split; [assumption | apply subtree_sequence_raise; assumption].
  - left. split; [assumption |].
    apply (@subtree_sequence_valid (S (vdepth t))); [lia | assumption].
Qed.

(** X4: a valid task without subtasks, the field absent or empty, yields its
    name alone. *)
Theorem leaf_sequence : forall t,
  valid_task t -> subtasks_of t = [] -> subtree_sequence t = Done [name_of t].
Proof.
  intros t Hv Hs. apply (@valid_task_validate (S (vdepth t)) t (Nat.lt_succ_diag_r _)) in Hv.
  destruct (@subtree_sequence_valid (S (vdepth t)) t (Nat.lt_succ_diag_r _) Hv) as [s H].
  destruct (subtree_sequence_inv _ H) as [_ [sl [rs [Hsl [Hrs ->]]]]].
  rewrite Hs in Hsl. inversion Hsl; subst. inversion Hrs; subst. assumption.
Qed.

Lemma leaf_sequence_witness :
  valid_task task_E /\ subtasks_of task_E = [] /\
  subtree_sequence task_E = Done [name_of task_E].
Proof.
  assert (H1 : valid_task task_E)
    by (eapply valid_leaf; [reflexivity | exact eq_refl | reflexivity]).
  assert (H2 : subtasks_of task_E = []) by reflexivity.
  repeat (split; [assumption |]).
  exact (@leaf_sequence task_E H1 H2).
Defined.

(** ** What the operation reports *)

Lemma extend_each_first_violation : forall sl acc,
  match first_violation (forest_nodes sl) with
  | Some m => extend_each subtree_sequence acc sl = Raise (ValueError m)
  | None => exists out, extend_each subtree_sequence acc sl = Done out
  end.
Proof.
  induction sl as [| t sl IH]; intros acc; simpl.
  - eexists; reflexivity.
  - unfold forest_nodes in *. simpl. rewrite first_violation_app.
    pose proof (@validate_nodes_depth (S (vdepth t)) t (Nat.lt_succ_diag_r _))
      as Hv.
    destruct (first_violation (nodes t)) as [m |].
    + rewrite (subtree_sequence_raise _ Hv). reflexivity.
    + destruct (@subtree_sequence_valid (S (vdepth t)) t (Nat.lt_succ_diag_r _) Hv)
        as [s ->]. cbn [bind]. apply IH.
Qed.

(** X5: when the sort of the top level raises nothing, the operation fails
    with the first violation met when the top-level tasks are taken in
    sorted order and each subtree parent first, and returns a sequence
    when there is none: no output is kept from the tasks scheduled before
    the failure. *)
Theorem schedule_first_violation : forall ts sorted_tasks,
  forallb is_dict ts = true ->
  sorted_reverse priority_key ts = Done sorted_tasks ->
  match first_violation (forest_nodes sorted_tasks) with
  | Some m => schedule_tasks (VList ts) = Raise (ValueError m)
  | None => exists out, schedule_tasks (VList ts) = Done out
  end.
Proof.
  intros ts sl Hd Hsl. rewrite schedule_tasks_list, Hd, Hsl. cbn [bind].
  apply extend_each_first_violation.
Qed.

Lemma schedule_first_violation_witness :
  let y := VDict [("name", VStr "Y"); ("priority", VInt 3)] in
  let bad := VDict [("name", VStr "Invalid"); ("subtasks", VStr "x")] in
  forallb is_dict [bad; y] = true /\
  sorted_reverse priority_key [bad; y] = Done [y; bad] /\
  match first_violation (forest_nodes [y; bad]) with
  | Some m => schedule_tasks (VList [bad; y]) = Raise (ValueError m)
  | None => exists out, schedule_tasks (VList [bad; y]) = Done out
  end.
Proof.
  intros y bad.
  assert (H1 : forallb is_dict [bad; y] = true) by reflexivity.
  assert (H2 : sorted_reverse priority_key [bad; y] = Done [y; bad])
    by (vm_compute; reflexivity).
  repeat (split; [assumption |]).
  exact (@schedule_first_violation [bad; y] [y; bad] H1 H2).
Defined.

(** ** The sort raises what the comparison raises *)

Section SortOutcome.
Variable X : Type.
Variable lt : X -> X -> outcome bool.
Variable e0 : exn.
Hypothesis lt_outcome : forall x y, (exists c, lt x y = Done c) \/ lt x y = Raise e0.

Lemma run_while_outcome : forall want l prev,
(exists rr, run_while lt want prev l = Done rr) \/
run_while lt want prev l = Raise e0.
Proof.
induction l as [| x l IH]; intros prev; simpl; [eauto |].
destruct (lt_outcome x prev) as [[c ->] | ->]; simpl; [| auto].
destruct (Bool.eqb c want); [| eauto].
destruct (IH x) as [[rr ->] | ->]; simpl; eauto.
Qed.

Lemma count_run_outcome : forall l,
(exists rr, count_run lt l = Done rr) \/ count_run lt l = Raise e0.
Proof.
intros [| x0 [| x1 l]]; simpl; eauto.
destruct (lt_outcome x1 x0) as [[c ->] | ->]; simpl; [| auto].
destruct (run_while_outcome c l x1) as [[rr ->] | ->]; simpl; eauto.
Qed.

Lemma bisect_outcome : forall pivot a fuel l r,
r - l <= fuel -> r <= length a ->
(exists k, bisect lt fuel pivot a l r = Done k) \/
bisect lt fuel pivot a l r = Raise e0.
Proof.
intros pivot a. induction fuel as [| fuel IH]; intros l r Hf Hr; simpl.
- destruct (r <=? l) eqn:E; [eauto | apply Nat.leb_gt in E; lia].
- destruct (r <=? l) eqn:E; [eauto |]. apply Nat.leb_gt in E.
  assert (Hd : Nat.div2 (r - l) < r - l) by (apply Nat.lt_div2; lia).
  remember (Nat.div2 (r - l)) as half eqn:Eh. clear Eh.
  destruct (nth_error a (l + half)) as [y |] eqn:Ey;
    [| apply nth_error_None in Ey; lia].
  destruct (lt_outcome pivot y) as [[c ->] | ->]; simpl; [| auto].
  destruct c; apply IH; lia.
Qed.

Lemma binarysort_outcome : forall rest a,
(exists s, binarysort lt a rest = Done s) \/ binarysort lt a rest = Raise e0.
Proof.
induction rest as [| p rest IH]; intros a; simpl; [eauto |].
destruct (@bisect_outcome p a (length a) 0 (length a)) as [[k ->] | ->];
  try lia; simpl; auto.
Qed.

Lemma list_sort_outcome : forall l,
(exists s, list_sort lt l = Done s) \/ list_sort lt l = Raise e0.
Proof.
intros l. unfold list_sort.
destruct (count_run_outcome l) as [[rr ->] | ->]; simpl; [| auto].
apply binarysort_outcome.
Qed.
End SortOutcome.

(** A comparison of two values answers or raises a [TypeError]. *)
Lemma py_lt_outcome_depth : forall n a b,
  vdepth a < n -> (exists c, py_lt a b = Done c) \/ py_lt a b = Raise TypeError.
Proof.
  induction n as [| n IH]; intros a b Hn; [lia |].
  destruct a as [| c | z | f | s | l | d].
  - right; reflexivity.
  - simpl. destruct (as_number b); eauto.
  - simpl. destruct (as_number b); eauto.
  - simpl. destruct (as_number b); eauto.
  - destruct b; simpl; eauto.
  - destruct b as [| | | | | m |]; try (right; reflexivity).
    assert (Hl : Forall (fun x => vdepth x < n) l).
    { rewrite Forall_forall. intros x Hx. apply vdepth_in in Hx. lia. }
    clear Hn. revert m. induction Hl as [| x l Hx _ IHl]; intros m.
    + destruct m; simpl; eauto.
    + destruct m as [| y m]; [simpl; eauto |].
      cbn [py_lt]. destruct (py_eq x y); [apply IHl | apply IH; assumption].
  - right; reflexivity.
Qed.

Lemma py_lt_outcome : forall a b,
  (exists c, py_lt a b = Done c) \/ py_lt a b = Raise TypeError.
Proof. intros a b. apply (@py_lt_outcome_depth (S (vdepth a))). lia. Qed.

Lemma sorted_reverse_outcome : forall ts,
  forallb is_dict ts = true ->
  (exists s, sorted_reverse priority_key ts = Done s) \/
  sorted_reverse priority_key ts = Raise TypeError.
Proof.
  intros ts Hd. rewrite forallb_forall in Hd.
  rewrite (@sorted_reverse_keyed _ priority_key key_of ts)
    by (intros x Hx; apply priority_key_dict; auto).
  destruct (@list_sort_outcome _ (fun a b : value * value => py_lt (fst a) (fst b))
              TypeError (fun x y => py_lt_outcome (fst x) (fst y))
              (rev (map (fun x => (key_of x, x)) ts))) as [[s ->] | ->];
    simpl; eauto.
Qed.

Lemma good_priority_number : forall t,
  is_dict t = true -> bad_priority t = false -> is_number (key_of t) = true.
Proof.
  intros [| | | | | | d] Hd Hb; try discriminate.
  unfold key_of, bad_priority in *. simpl.
  destruct (get "priority" d) as [p |]; [| reflexivity].
  destruct (is_number p); [reflexivity | discriminate].
Qed.

(** Only a top level of two tasks or more, one of them with a priority
    that is no number, can make the sort raise. *)
Lemma sorted_reverse_raise_inv : forall ts e,
  forallb is_dict ts = true -> sorted_reverse priority_key ts = Raise e ->
  2 <= length ts /\ existsb bad_priority ts = true.
Proof.
  intros ts e Hd H. split.
  - destruct ts as [| t [| t' ts]]; [discriminate | | simpl; lia].
    destruct t; discriminate.
  - destruct (existsb bad_priority ts) eqn:Eb; [reflexivity |].
    rewrite forallb_forall in Hd.
    destruct (@sorted_reverse_numbers _ priority_key key_of ts) as [s Hs].
    + intros x Hx. apply priority_key_dict; auto.
    + intros x Hx. apply good_priority_number; [auto |].
      destruct (bad_priority x) eqn:Ex; [| reflexivity].
      rewrite <- Eb. symmetry. apply existsb_exists. eauto.
    + congruence.
Qed.

Lemma schedule_tasks_cases : forall h,
  (exists out, schedule_tasks h = Done out) \/
  (exists m, In m validation_messages /\ schedule_tasks h = Raise (ValueError m)) \/
  (schedule_tasks h = Raise TypeError /\
   exists ts, h = VList ts /\ 2 <= length ts /\ existsb bad_priority ts = true).
Proof.
  intros h. destruct h as [| | | | | ts |];
    try (right; left; exists msg_hierarchy; split; [left; reflexivity | reflexivity]).
  rewrite schedule_tasks_list.
  destruct (forallb is_dict ts) eqn:Hd;
    [| right; left; exists msg_top_level; split; [right; left; reflexivity | reflexivity]].
  destruct (sorted_reverse_outcome _ Hd) as [[sl Hsl] | Hsl]; rewrite Hsl; cbn [bind].
  - pose proof (extend_each_first_violation sl []) as H.
    destruct (first_violation (forest_nodes sl)) as [m |] eqn:E.
    + right; left. exists m. split; [| assumption].
      right; right. eapply first_violation_message; eassumption.
    + left; assumption.
  - right; right. split; [reflexivity |].
    exists ts. split; [reflexivity |]. eapply sorted_reverse_raise_inv; eassumption.
Qed.

(** X6: the operation returns a sequence, or raises a [ValueError] with one of
    its six messages, or raises a [TypeError]; the last only when the top
    level has two tasks or more and one of them a priority that is no
    number.  It raises nothing else and never runs out of budget. *)
Theorem schedule_tasks_outcomes : forall h,
  (exists out, schedule_tasks h = Done out) \/
  (exists m, In m validation_messages /\ schedule_tasks h = Raise (ValueError m)) \/
  (schedule_tasks h = Raise TypeError /\
   exists ts, h = VList ts /\ 2 <= length ts /\ existsb bad_priority ts = true).
Proof. intros h. destruct (schedule_tasks_cases h) as [H | [H | H]]; auto. Qed.

(** X7: the operation returns a sequence exactly on the lists of valid tasks. *)
Theorem schedule_succeeds_iff_valid : forall h,
  (exists out, schedule_tasks h = Done out) <->
  (exists ts, h = VList ts /\ Forall valid_task ts).
Proof.
  intros h. split.
  - intros [out H]. destruct h as [| | | | | ts |]; try discriminate.
    exists ts. split; [reflexivity |]. eapply scheduled_forest_valid; eassumption.
  - intros [ts [-> Hv]]. apply valid_forest_scheduled; assumption.
Qed.

Lemma schedule_tasks_names : forall ts out,
  schedule_tasks (VList ts) = Done out ->
  Permutation out (map name_of (forest_nodes ts)).
Proof.
  intros ts out Hout.
  destruct (schedule_tasks_inv _ Hout) as [_ [sl [rs [Hsl [Hrs ->]]]]].
  unfold forest_nodes. rewrite map_flat_map_comm.
  rewrite <- (Permutation_flat_map _ (sorted_reverse_perm _ _ Hsl)).
  apply Forall2_concat_perm.
  clear Hsl Hout. induction Hrs as [| c r sl rs Hr _ IH]; constructor; [| assumption].
  apply (@subtree_sequence_names (S (vdepth c))); [lia | assumption].
Qed.

(** X8: every item of a returned sequence is a string. *)
Theorem scheduled_names_are_strings : forall h out,
  schedule_tasks h = Done out -> Forall (fun v => is_str v = true) out.
Proof.
  intros h out H. destruct h as [| | | | | ts |]; try discriminate.
  pose proof (schedule_tasks_names _ H) as Hp.
  rewrite Forall_forall. intros v Hv.
  apply (Permutation_in _ Hp) in Hv. apply in_map_iff in Hv.
  destruct Hv as [n [<- Hn]].
  destruct (@schedule_tasks_block ts out n H Hn) as [sn [_ [_ [Hsn _]]]].
  destruct (subtree_sequence_inv _ Hsn) as [Hval _].
  destruct (validate_done_inv _ Hval) as [d [s [-> [Hname _]]]].
  simpl. rewrite Hname. reflexivity.
Qed.

Lemma scheduled_names_are_strings_witness :
  schedule_tasks basic_hierarchy =
    Done [VStr "C"; VStr "D"; VStr "B"; VStr "A"; VStr "E"] /\
  Forall (fun v => is_str v = true)
         [VStr "C"; VStr "D"; VStr "B"; VStr "A"; VStr "E"].
Proof.
  assert (H : schedule_tasks basic_hierarchy =
              Done [VStr "C"; VStr "D"; VStr "B"; VStr "A"; VStr "E"])
    by (vm_compute; reflexivity).
  split; [assumption |].
  exact (@scheduled_names_are_strings basic_hierarchy _ H).
Defined.

Lemma absent_or_zero_alike : forall n t t',
  vdepth t < n -> absent_or_zero t t' -> alike t t'.
Proof.
  induction n as [| n IH]; intros t t' Hn H; [lia |].
  destruct H as [v | d d' Hp Hp' Hk | d d' l l' Hs Hs' Hname Hp Hl].
  - constructor.
  - apply alike_field.
    + apply Hk; discriminate.
    + rewrite Hp, Hp'. constructor.
    + apply Hk; discriminate.
  - eapply alike_list; try eassumption.
    + destruct Hp as [Hp | [Hp Hp']];
        [rewrite Hp | rewrite Hp, Hp']; constructor.
    + eapply Forall2_impl_in; [exact Hl |]. intros x y Hx Hxy.
      pose proof (@vdepth_subtasks _ _ _ Hs Hx). apply IH; [lia | assumption].
Qed.

(** X9: a task without a priority is scheduled as the same task with the
    priority 0: the two hierarchies have the same outcome. *)
Theorem absent_priority_as_zero : forall ts ts',
  Forall2 absent_or_zero ts ts' ->
  schedule_tasks (VList ts) = schedule_tasks (VList ts').
Proof.
  intros ts ts' H. apply schedule_tasks_alike.
  exact (Forall2_alike absent_or_zero_alike H).
Qed.

Lemma absent_priority_as_zero_witness :
  let low := VDict [("name", VStr "L"); ("priority", VInt (-1))] in
  let absent := [low; VDict [("name", VStr "P")]] in
  let zero := [low; VDict [("name", VStr "P"); ("priority", VInt 0)]] in
  Forall2 absent_or_zero absent zero /\
  schedule_tasks (VList absent) = schedule_tasks (VList zero).
Proof.
  intros low absent zero.
  assert (H : Forall2 absent_or_zero absent zero).
  { constructor; [apply aoz_same |]. constructor; [| constructor].
    apply aoz_here; try reflexivity.
    intros k Hk. cbn [get]. destruct (String.eqb "name" k); [reflexivity |].
    destruct (String.eqb_spec "priority" k); [congruence | reflexivity]. }
  split; [assumption |].
  exact (@absent_priority_as_zero absent zero H).
Defined.

(** ** The sort of siblings *)

(** X10: [sorted] on siblings whose priorities compare (none is NaN) returns
    them all, by descending priority, those of equal priority in the order
    of the input. *)
Theorem siblings_sorted_by_priority : forall g,
  forallb has_order g = true ->
  exists sorted_tasks,
    sorted_reverse priority_key g = Done sorted_tasks /\
    Permutation sorted_tasks g /\
    StronglySorted (fun x y => higher_priority y x = false) sorted_tasks /\
    forall c, has_order c = true ->
      filter (same_priority c) sorted_tasks = filter (same_priority c) g.
Proof.
  intros g Hg. pose proof Hg as Ho. rewrite forallb_forall in Ho.
  destruct (@sorted_reverse_numbers _ priority_key key_of g) as [sl Hsl].
  - intros x Hx. apply priority_key_dict, has_order_key; auto.
  - intros x Hx. apply ordered_key_number, has_order_key; auto.
  - pose proof (sorted_reverse_perm _ _ Hsl) as Hp.
    destruct (@sorted_siblings g sl Hg Hsl) as [Hsorted Hstable].
    exists sl. repeat split; try assumption.
    + eapply StronglySorted_weaken; [| exact Hsorted].
      intros x y Hx Hy Hxy.
      rewrite higher_priority_key; [assumption | |];
        apply has_order_key, Ho; eapply Permutation_in; eassumption.
    + intros c Hc. specialize (Hstable c Hc).
      rewrite (filter_ext_in (same_priority c)
                 (fun x => equiv_by key_ltb (key_of c) (key_of x)) sl).
      2:{ intros x Hx. apply same_priority_key; [assumption |].
          apply Ho. eapply Permutation_in; eassumption. }
      rewrite (filter_ext_in (same_priority c)
                 (fun x => equiv_by key_ltb (key_of c) (key_of x)) g).
      2:{ intros x Hx. apply same_priority_key; auto. }
      assumption.
Qed.

Lemma siblings_sorted_by_priority_witness :
  forallb has_order [task_B; task_C] = true /\
  exists sorted_tasks,
    sorted_reverse priority_key [task_B; task_C] = Done sorted_tasks /\
    Permutation sorted_tasks [task_B; task_C] /\
    StronglySorted (fun x y => higher_priority y x = false) sorted_tasks /\
    forall c, has_order c = true ->
      filter (same_priority c) sorted_tasks = filter (same_priority c) [task_B; task_C].
Proof.
  assert (H : forallb has_order [task_B; task_C] = true) by reflexivity.
  split; [assumption |].
  exact (@siblings_sorted_by_priority [task_B; task_C] H).
Defined.

(** ** The driver *)

(** X14: for each case the driver prints the header and then either the line
    "Scheduled Tasks:" and the names in schedule order, or one line with
    the message of the validation error; only a [TypeError] of the
    operation escapes it, after the header. *)
Theorem run_case_reports : forall case_name tasks,
  let header := VStr (String "010" (case_name ++ ":")) in
  (exists out, schedule_tasks tasks = Done out /\
     run_case case_name tasks = (header :: VStr "Scheduled Tasks:" :: out, Done tt)) \/
  (exists m, In m validation_messages /\
     schedule_tasks tasks = Raise (ValueError m) /\
     run_case case_name tasks = ([header; VStr ("Error: " ++ m)], Done tt)) \/
  (schedule_tasks tasks = Raise TypeError /\
   run_case case_name tasks = ([header], Raise TypeError)).
Proof.
  intros case_name tasks header. unfold run_case.
  destruct (schedule_tasks_cases tasks) as [[out H] | [[m [Hm H]] | [H _]]];
    rewrite H.
  - left. exists out. split; reflexivity.
  - right; left. exists m. repeat split; assumption.
  - right; right. split; reflexivity.
Qed.

(** The run of the driver on its five cases: all are reported, none
    stops it. *)
Lemma main_output :
  main =
  ([ VStr (String "010" "Case 1: Basic Hierarchy:"); VStr "Scheduled Tasks:";
     VStr "Task C"; VStr "Task D"; VStr "Task B"; VStr "Task A"; VStr "Task E";
     VStr (String "010" "Case 2: No Tasks:"); VStr "Scheduled Tasks:";
     VStr (String "010" "Case 3: Single Task:"); VStr "Scheduled Tasks:";
     VStr "Task X";
     VStr (String "010" "Case 4: Invalid Task Format:");
     VStr "Error: The 'subtasks' field must be a list.";
     VStr (String "010" "Case 5: Mixed Valid and Invalid Tasks:");
     VStr "Error: The 'subtasks' field must be a list." ],
   Done tt).
Proof. vm_compute. reflexivity. Qed.

(** ** Messages *)

(** X15: the six validation errors have six different messages. *)
Theorem validation_messages_distinct : NoDup validation_messages.
Proof.
  unfold validation_messages, task_messages.
  repeat (constructor;
          [ simpl; intros H;
            repeat (destruct H as [H | H]; [discriminate H |]); exact H | ]).
  constructor.
Qed.

(** ** When the order of the input does not matter, and when it is all
    that matters *)

Lemma equiv_by_sym : forall (X : Type) (ltb : X -> X -> bool) a b,
  equiv_by ltb a b = equiv_by ltb b a.
Proof. intros. unfold equiv_by. apply andb_comm. Qed.

(** Two lists sorted by descending priority that hold the same tasks, no
    two of them of equal priority, are one list. *)
Lemma sorted_unique : forall sl sl',
  Permutation sl sl' ->
  (forall x y, In x sl -> In y sl -> x = y \/ equiv_by key_ltb (key_of x) (key_of y) = false) ->
  StronglySorted (fun x y => key_ltb (key_of x) (key_of y) = false) sl ->
  StronglySorted (fun x y => key_ltb (key_of x) (key_of y) = false) sl' ->
  sl = sl'.
Proof.
  induction sl as [| x sl IH]; intros sl' Hp Hd Hs Hs'.
  - apply Permutation_nil in Hp. congruence.
  - destruct sl' as [| y sl']; [apply Permutation_sym, Permutation_nil in Hp; discriminate |].
    assert (Exy : x = y).
    { assert (Hy : In y (x :: sl)) by
        (eapply Permutation_in; [apply Permutation_sym; exact Hp | left; reflexivity]).
      assert (Hx : In x (y :: sl')) by
        (eapply Permutation_in; [exact Hp | left; reflexivity]).
      destruct Hy as [Hy | Hy]; [assumption |].
      destruct Hx as [Hx | Hx]; [congruence |].
      inversion Hs as [| ? ? _ Hf]; inversion Hs' as [| ? ? _ Hf']; subst.
      rewrite Forall_forall in Hf, Hf'.
      destruct (Hd x y (or_introl eq_refl) (or_intror Hy)) as [E | E]; [assumption |].
      unfold equiv_by in E. rewrite (Hf y Hy), (Hf' x Hx) in E. discriminate. }
    subst y. f_equal. apply Permutation_cons_inv in Hp.
    inversion Hs; inversion Hs'; subst.
    apply IH; try assumption.
    intros a b Ha Hb. apply Hd; right; assumption.
Qed.

(** X11: top-level tasks no two of which have equal priorities (none NaN) can
    be given in any order: the outcome is the same. *)
Theorem top_level_order_irrelevant : forall ts ts',
  Permutation ts ts' ->
  forallb has_order ts = true ->
  ForallOrdPairs (fun x y => same_priority x y = false) ts ->
  schedule_tasks (VList ts) = schedule_tasks (VList ts').
Proof.
  intros ts ts' Hp Ho Hd.
  assert (Ho' : forallb has_order ts' = true).
  { rewrite forallb_forall in *. intros x Hx. apply Ho.
    eapply Permutation_in; [apply Permutation_sym; exact Hp | exact Hx]. }
  assert (Hdict : forall l, forallb has_order l = true -> forallb is_dict l = true).
  { intros l H. rewrite forallb_forall in *. intros x Hx.
    apply has_order_key; auto. }
  rewrite !schedule_tasks_list, (Hdict _ Ho), (Hdict _ Ho').
  destruct (@sorted_reverse_numbers _ priority_key key_of ts) as [sl Hsl];
    [ intros x Hx; apply priority_key_dict; rewrite forallb_forall in Ho;
      apply has_order_key; auto
    | intros x Hx; rewrite forallb_forall in Ho;
      apply ordered_key_number, has_order_key; auto |].
  destruct (@sorted_reverse_numbers _ priority_key key_of ts') as [sl' Hsl'];
    [ intros x Hx; apply priority_key_dict; rewrite forallb_forall in Ho';
      apply has_order_key; auto
    | intros x Hx; rewrite forallb_forall in Ho';
      apply ordered_key_number, has_order_key; auto |].
  rewrite Hsl, Hsl'. cbn [bind].
  destruct (@sorted_siblings ts sl Ho Hsl) as [Hs _].
  destruct (@sorted_siblings ts' sl' Ho' Hsl') as [Hs' _].
  pose proof (sorted_reverse_perm _ _ Hsl) as P.
  pose proof (sorted_reverse_perm _ _ Hsl') as P'.
  rewrite (@sorted_unique sl sl'); try assumption; [reflexivity | |].
  - rewrite P, Hp. symmetry. exact P'.
  - intros x y Hx Hy.
    apply (Permutation_in _ P) in Hx. apply (Permutation_in _ P) in Hy.
    rewrite forallb_forall in Ho.
    destruct (ForallOrdPairs_In Hd _ _ Hx Hy) as [E | [E | E]]; [left; assumption | |];
      right.
    + rewrite <- same_priority_key; auto.
    + rewrite equiv_by_sym, <- same_priority_key; auto.
Qed.

Lemma top_level_order_irrelevant_witness :
  Permutation [task_A; task_E] [task_E; task_A] /\
  forallb has_order [task_A; task_E] = true /\
  ForallOrdPairs (fun x y => same_priority x y = false) [task_A; task_E] /\
  schedule_tasks (VList [task_A; task_E]) = schedule_tasks (VList [task_E; task_A]).
Proof.
  assert (H1 : Permutation [task_A; task_E] [task_E; task_A]) by apply perm_swap.
  assert (H2 : forallb has_order [task_A; task_E] = true) by reflexivity.
  assert (H3 : ForallOrdPairs (fun x y => same_priority x y = false) [task_A; task_E])
    by (repeat constructor).
  repeat (split; [assumption |]).
  exact (@top_level_order_irrelevant _ _ H1 H2 H3).
Defined.

Lemma post_order_unfold : forall v,
  post_order v = flat_map post_order (subtasks_of v) ++ [name_of v].
Proof.
  intros [| | | | | | d]; try reflexivity.
  cbn [post_order]. f_equal. unfold subtasks_of.
  induction d as [| [k x] d IH]; simpl; [reflexivity |].
  destruct (String.eqb k "subtasks"); [| assumption].
  destruct x; reflexivity.
Qed.

Lemma filter_all : forall (A : Type) (f : A -> bool) l,
  (forall x, In x l -> f x = true) -> filter f l = l.
Proof.
  induction l as [| a l IH]; simpl; intros H; [reflexivity |].
  rewrite (H a (or_introl eq_refl)), IH; [reflexivity |].
  intros x Hx; apply H; right; assumption.
Qed.

(** Siblings without priorities are left in the order of the input. *)
Lemma sorted_reverse_no_priority : forall g,
  forallb no_priority g = true -> sorted_reverse priority_key g = Done g.
Proof.
  intros g Hg. rewrite forallb_forall in Hg.
  assert (Hk : forall x, In x g -> key_of x = VInt 0 /\ has_order x = true).
  { intros x Hx. specialize (Hg x Hx). destruct x as [| | | | | | d];
      try discriminate. unfold key_of, has_order, priority, no_priority in *. simpl in *.
    destruct (get "priority" d); [discriminate | split; reflexivity]. }
  assert (Ho : forallb has_order g = true)
    by (apply forallb_forall; intros x Hx; apply Hk; assumption).
  destruct (@sorted_reverse_numbers _ priority_key key_of g) as [sl Hsl].
  - intros x Hx. apply priority_key_dict, has_order_key, Hk; assumption.
  - intros x Hx. apply ordered_key_number, has_order_key, Hk; assumption.
  - rewrite Hsl. f_equal.
    destruct g as [| c g].
    + apply sorted_reverse_perm in Hsl. apply Permutation_sym, Permutation_nil in Hsl.
      exact Hsl.
    + destruct (@sorted_siblings (c :: g) sl Ho Hsl) as [_ Hst].
      specialize (Hst c (proj2 (Hk c (or_introl eq_refl)))).
      pose proof (sorted_reverse_perm _ _ Hsl) as P.
      rewrite !filter_all in Hst; [assumption | |].
      * intros x Hx. destruct (Hk c (or_introl eq_refl)) as [-> _].
        destruct (Hk x Hx) as [-> _]. reflexivity.
      * intros x Hx. apply (Permutation_in _ P) in Hx.
        destruct (Hk c (or_introl eq_refl)) as [-> _].
        destruct (Hk x Hx) as [-> _]. reflexivity.
Qed.

Lemma Forall2_concat_flat_map : forall (A B : Type) (f : A -> outcome (list B))
                                       (g : A -> list B) l rs,
  Forall2 (fun c r => f c = Done r) l rs ->
  (forall c, In c l -> f c = Done (g c)) ->
  concat rs = flat_map g l.
Proof.
  induction 1 as [| c r l rs Hr _ IH]; intros H; simpl; [reflexivity |].
  rewrite (H c (or_introl eq_refl)) in Hr. inversion Hr; subst.
  rewrite IH; [reflexivity |]. intros c' Hc'; apply H; right; assumption.
Qed.

Lemma subtree_sequence_post_order : forall n t,
  vdepth t < n -> validate t = Done tt ->
  forallb no_priority (nodes t) = true ->
  subtree_sequence t = Done (post_order t).
Proof.
  induction n as [| n IH]; intros t Hn Hv Hnp; [lia |].
  rewrite forallb_forall in Hnp.
  destruct (@subtree_sequence_valid (S (vdepth t)) t (Nat.lt_succ_diag_r _) Hv) as [s Hs].
  rewrite Hs. destruct (subtree_sequence_inv _ Hs) as [_ [sl [rs [Hsl [Hrs ->]]]]].
  rewrite sorted_reverse_no_priority in Hsl.
  2:{ apply forallb_forall. intros c Hc. apply Hnp.
      eapply nodes_below; [exact Hc | apply nodes_self]. }
  inversion Hsl; subst sl.
  rewrite post_order_unfold. do 2 f_equal.
  apply (@Forall2_concat_flat_map _ _ subtree_sequence post_order _ _ Hrs). intros c Hc.
  pose proof (subtasks_of_depth _ _ Hc).
  destruct (validate_done_inv _ Hv) as [_ [_ [_ [_ [_ [_ Hcs]]]]]].
  rewrite Forall_forall in Hcs.
  apply IH; [lia | auto |].
  apply forallb_forall. intros m Hm. apply Hnp. eapply nodes_below; eassumption.
Qed.

(** X12: in a valid forest where no task has a priority the schedule is the
    post-order of the input: the subtasks of every task in the order
    given, then the task. *)
Theorem no_priority_post_order : forall ts,
  Forall valid_task ts -> forallb no_priority (forest_nodes ts) = true ->
  schedule_tasks (VList ts) = Done (flat_map post_order ts).
Proof.
  intros ts Hv Hnp. rewrite forallb_forall in Hnp. rewrite Forall_forall in Hv.
  assert (Hval : forall t, In t ts -> validate t = Done tt).
  { intros t Ht. apply (@valid_task_validate (S (vdepth t))); [lia | auto]. }
  rewrite schedule_tasks_list.
  replace (forallb is_dict ts) with true
    by (symmetry; apply forallb_forall; intros t Ht; apply validate_done_key; auto).
  rewrite sorted_reverse_no_priority.
  2:{ apply forallb_forall. intros t Ht. apply Hnp.
      apply in_flat_map. exists t. split; [assumption | apply nodes_self]. }
  cbn [bind]. apply extend_each_done.
  exists (map post_order ts). split.
  - assert (H : forall t, In t ts -> subtree_sequence t = Done (post_order t)).
    { intros t Ht. apply (@subtree_sequence_post_order (S (vdepth t))); [lia | auto |].
      apply forallb_forall. intros m Hm. apply Hnp.
      apply in_flat_map. exists t. split; assumption. }
    clear - H. induction ts as [| t ts IH]; simpl; constructor.
    + apply H; left; reflexivity.
    + apply IH. intros t' Ht'; apply H; right; assumption.
  - simpl. apply flat_map_concat_map.
Qed.

Lemma no_priority_post_order_witness :
  let leaf := fun n => VDict [("name", VStr n)] in
  let ts := [VDict [("name", VStr "P"); ("subtasks", VList [leaf "x"; leaf "y"])];
             leaf "Q"] in
  Forall valid_task ts /\ forallb no_priority (forest_nodes ts) = true /\
  schedule_tasks (VList ts) = Done (flat_map post_order ts).
Proof.
  intros leaf ts.
  assert (H1 : Forall valid_task ts).
  { apply Forall_forall. intros t [<- | [<- | []]];
      apply (@validate_valid_task 10); solve [simpl; lia | vm_compute; reflexivity]. }
  assert (H2 : forallb no_priority (forest_nodes ts) = true) by reflexivity.
  repeat (split; [assumption |]).
  exact (@no_priority_post_order ts H1 H2).
Defined.

Lemma first_violation_none : forall l n,
  first_violation l = None -> In n l -> own_violation n = None.
Proof.
  induction l as [| t l IH]; simpl; intros n H Hn; [contradiction |].
  destruct (own_violation t) eqn:E; [discriminate |].
  destruct Hn as [<- | Hn]; [assumption | auto].
Qed.

(** X13: when every top-level task is a dictionary whose priority, if present,
    is a number, a task at any depth that violates a rule makes the
    operation fail with a validation error: no sequence is returned. *)
Theorem invalid_task_rejected : forall ts n,
  forallb is_dict ts = true -> existsb bad_priority ts = false ->
  In n (forest_nodes ts) -> own_violation n <> None ->
  exists m, In m task_messages /\ schedule_tasks (VList ts) = Raise (ValueError m).
Proof.
  intros ts n Hd Hb Hn Hviol.
  destruct (sorted_reverse_outcome _ Hd) as [[sl Hsl] | Hsl].
  - pose proof (sorted_reverse_perm _ _ Hsl) as P.
    rewrite schedule_tasks_list, Hd, Hsl. cbn [bind].
    pose proof (extend_each_first_violation sl []) as H.
    destruct (first_violation (forest_nodes sl)) as [m |] eqn:E.
    + exists m. split; [eapply first_violation_message; eassumption | assumption].
    + exfalso. apply Hviol. apply (@first_violation_none _ n E).
      unfold forest_nodes in *.
      eapply Permutation_in; [| exact Hn].
      apply Permutation_flat_map, Permutation_sym, P.
  - destruct (sorted_reverse_raise_inv _ Hd Hsl) as [_ Hbad]. congruence.
Qed.

Lemma invalid_task_rejected_witness :
  let inner := VList [VStr "not a task"] in
  let ts := [VDict [("name", VStr "Y"); ("priority", VInt 3)];
             VDict [("name", VStr "Z"); ("subtasks", inner)]] in
  forallb is_dict ts = true /\ existsb bad_priority ts = false /\
  In (VStr "not a task") (forest_nodes ts) /\
  own_violation (VStr "not a task") <> None /\
  exists m, In m task_messages /\ schedule_tasks (VList ts) = Raise (ValueError m).
Proof.
  intros inner ts.
  assert (H1 : forallb is_dict ts = true) by reflexivity.
  assert (H2 : existsb bad_priority ts = false) by reflexivity.
  assert (H3 : In (VStr "not a task") (forest_nodes ts))
    by (right; right; left; reflexivity).
  assert (H4 : own_violation (VStr "not a task") <> None) by discriminate.
  repeat (split; [assumption |]).
  exact (@invalid_task_rejected ts (VStr "not a task") H1 H2 H3 H4).
Defined.
